(** * Matchmaking engine of IronRoom: a shallow embedding

    Sources embedded here:
    - [services/matchmakingService.js] (src/unnamed/part_006): the background
      pass [processMatchmakingQueue], [createMatch] and the safety/fatigue
      lookups [checkBlocked], [checkReported], [checkSuspended],
      [checkRecentMatch];
    - [routes/matches.js] (src/src/routes/matches.js): the Redis-queue
      [POST /request], [POST /cancel] and [POST /:matchId/end] handlers;
    - the DB-queue version of [POST /request] (src/unnamed/part_000), for its
      request-time scoring;
    - [POST /reports/block] (src/unnamed/part_002), which ends an active match
      with status [blocked];
    - [utils/constants.js] (src/unnamed/part_005): [MATCH_SCORING],
      [MATCH_COOLDOWN_MS].

    Times are JavaScript millisecond timestamps, modelled as [Z].  JS number
    divisions that are floored or ceiled are modelled exactly with [Q]
    (for the integer millisecond values involved the double results are
    exact or far from an integer, so the floors and ceilings agree). *)

From Stdlib Require Import ZArith QArith Qround List String Ascii Bool Lia.
Import ListNotations.
Open Scope Z_scope.

(** ** Constants ([utils/constants.js]) *)

Definition SHARED_INTENT : Z := 50.
Definition TIME_WAITING_PER_10S : Z := 1.
Definition RECENT_ACTIVITY : Z := 10.
Definition RECENT_ACTIVITY_WINDOW_MS : Z := 2 * 60 * 1000.
Definition CONVERSATION_FATIGUE : Z := -40.
Definition FATIGUE_WINDOW_DAYS : Z := 7.
Definition MATCH_COOLDOWN_MS : Z := 5 * 60 * 1000.
(** The reaping threshold written inline in [processMatchmakingQueue]. *)
Definition QUEUE_TIMEOUT_MS : Z := 120000.
Definition DAY_MS : Z := 24 * 60 * 60 * 1000.

(** ** JS arithmetic *)

(** [Math.floor(x / d)] and [Math.ceil(x / d)] on numbers. *)
Definition js_floor (x : Q) : Z := Qfloor x.
Definition js_ceil (x : Q) : Z := Qceiling x.
Definition js_div (x y : Q) : Q := Qdiv x y.
Definition num (z : Z) : Q := inject_Z z.

(** ** Data model *)

(** A member of the Redis sorted set [matchmaking_queue], as parsed by
    [JSON.parse]: the object built in [POST /request]. *)
Record Entry := mkEntry {
  userId : string;
  intentTagIds : list string;
  timestampJoined : Z;
  lastMatchTime : Z
}.

Inductive MatchStatus := Active | Ended | Blocked.

Definition status_eqb (a b : MatchStatus) : bool :=
  match a, b with
  | Active, Active | Ended, Ended | Blocked, Blocked => true
  | _, _ => false
  end.

(** A row of [privateMatch]. *)
Record MatchRecord := mkMatch {
  matchId : nat;
  userOneId : string;
  userTwoId : string;
  status : MatchStatus;
  matchedAt : Z;
  endedAt : option Z
}.

Inductive ReportStatus := Pending | Reviewed | Resolved.

(** A row of [report]. *)
Record Report := mkReport {
  reportedBy : string;
  targetUserId : string;
  reportStatus : ReportStatus
}.

(** The external lookups a pass performs. *)
Inductive Lookup := LBlocked | LReported | LSuspended | LRecentMatch.

(** The state the engine reads and writes: the Redis queue (in [zrange]
    order), the database tables it consults, and which external lookups
    are currently failing (a rejected prisma promise). *)
Record World := mkWorld {
  queue : list Entry;
  matches : list MatchRecord;
  blocks : list (string * string);      (* (blockerId, blockedId) *)
  reports : list Report;
  suspended : list string;              (* users with isSuspended = true *)
  lookup_fail : Lookup -> string -> string -> bool;
  next_id : nat
}.

Definition set_queue (q : list Entry) (w : World) : World :=
  mkWorld q (matches w) (blocks w) (reports w) (suspended w) (lookup_fail w) (next_id w).

Definition set_matches (ms : list MatchRecord) (n : nat) (w : World) : World :=
  mkWorld (queue w) ms (blocks w) (reports w) (suspended w) (lookup_fail w) n.

Definition set_blocks (bs : list (string * string)) (w : World) : World :=
  mkWorld (queue w) (matches w) bs (reports w) (suspended w) (lookup_fail w) (next_id w).

(** Outcome of an awaited call: a value or a thrown error. *)
Inductive Err := LookupFailed.

Inductive outcome (A : Type) := Ok (a : A) | Fail (e : Err).
Arguments Ok {A} a.
Arguments Fail {A} e.

Definition bind {A B} (m : outcome A) (k : A -> outcome B) : outcome B :=
  match m with Ok a => k a | Fail e => Fail e end.

Notation "x <- m ;; k" := (bind m (fun x => k))
  (at level 61, m at next level, right associativity).

(** ** Lookups ([checkBlocked], [checkReported], [checkSuspended],
    [checkRecentMatch]) *)

Definition blocked_between (bs : list (string * string)) (a b : string) : bool :=
  existsb (fun '(x, y) => (String.eqb x a && String.eqb y b)
                          || (String.eqb x b && String.eqb y a)) bs.

(** [prisma.report.findFirst] with no condition on the report's status. *)
Definition reported_between (rs : list Report) (a b : string) : bool :=
  existsb (fun r => (String.eqb (reportedBy r) a && String.eqb (targetUserId r) b)
                    || (String.eqb (reportedBy r) b && String.eqb (targetUserId r) a)) rs.

Definition suspended_either (su : list string) (a b : string) : bool :=
  existsb (fun x => String.eqb x a || String.eqb x b) su.

(** [checkRecentMatch(a, b, 7)]: a match between the two, in either order,
    with [matchedAt >= since] where [since] is [daysBack] days before now;
    no condition on the match's status. *)
Definition recent_match (ms : list MatchRecord) (a b : string) (now : Z) : bool :=
  let since := now - FATIGUE_WINDOW_DAYS * DAY_MS in
  existsb (fun m => ((String.eqb (userOneId m) a && String.eqb (userTwoId m) b)
                     || (String.eqb (userOneId m) b && String.eqb (userTwoId m) a))
                    && (since <=? matchedAt m)) ms.

Definition lookup (w : World) (l : Lookup) (a b : string) (v : bool) : outcome bool :=
  if lookup_fail w l a b then Fail LookupFailed else Ok v.

Definition checkBlocked (w : World) (a b : string) : outcome bool :=
  lookup w LBlocked a b (blocked_between (blocks w) a b).
Definition checkReported (w : World) (a b : string) : outcome bool :=
  lookup w LReported a b (reported_between (reports w) a b).
Definition checkSuspended (w : World) (a b : string) : outcome bool :=
  lookup w LSuspended a b (suspended_either (suspended w) a b).
Definition checkRecentMatch (w : World) (now : Z) (a b : string) : outcome bool :=
  lookup w LRecentMatch a b (recent_match (matches w) a b now).

(** ** Scoring *)

(** [userA.intentTagIds.filter((id) => userB.intentTagIds.includes(id))] *)
Definition shared_intents (ta tb : list string) : list string :=
  filter (fun id => existsb (String.eqb id) tb) ta.

(** The score computed in the worker's pair loop, given the answer of the
    fatigue lookup. *)
Definition score_pair (a b : Entry) (now : Z) (recentMatch : bool) : Z :=
  let s1 := if 0 <? Z.of_nat (List.length (shared_intents (intentTagIds a) (intentTagIds b)))
            then SHARED_INTENT else 0 in
  let waitA := js_div (num (now - timestampJoined a)) (num 1000) in
  let waitB := js_div (num (now - timestampJoined b)) (num 1000) in
  let s2 := s1 + js_floor (js_div waitA (num 10)) * TIME_WAITING_PER_10S
               + js_floor (js_div waitB (num 10)) * TIME_WAITING_PER_10S in
  let joinDiff := Z.abs (timestampJoined a - timestampJoined b) in
  let s3 := if joinDiff <? RECENT_ACTIVITY_WINDOW_MS then s2 + RECENT_ACTIVITY else s2 in
  if recentMatch then s3 + CONVERSATION_FATIGUE else s3.

(** ** The background pass ([processMatchmakingQueue]) *)

(** The unordered pairs of the nested loop [for i, for j > i], in the
    order the loop visits them. *)
Fixpoint pairs {A : Type} (l : list A) : list (A * A) :=
  match l with
  | [] => []
  | x :: xs => map (fun y => (x, y)) xs ++ pairs xs
  end.

(** [bestPair] with its score; [None] is [bestScore = -Infinity]. *)
Definition Best := option (Entry * Entry * Z).

Definition beats (score : Z) (best : Best) : bool :=
  match best with
  | None => true
  | Some (_, _, bestScore) => bestScore <? score
  end.

(** One iteration of the inner loop body. *)
Definition scan_pair (w : World) (now : Z) (best : Best) (p : Entry * Entry)
  : outcome Best :=
  let '(userA, userB) := p in
  isBlocked <- checkBlocked w (userId userA) (userId userB) ;;
  if isBlocked then Ok best else
  hasReport <- checkReported w (userId userA) (userId userB) ;;
  if hasReport then Ok best else
  eitherSuspended <- checkSuspended w (userId userA) (userId userB) ;;
  if eitherSuspended then Ok best else
  recentMatch <- checkRecentMatch w now (userId userA) (userId userB) ;;
  let score := score_pair userA userB now recentMatch in
  if beats score best then Ok (Some (userA, userB, score)) else Ok best.

Fixpoint scan_pairs (w : World) (now : Z) (best : Best) (ps : list (Entry * Entry))
  : outcome Best :=
  match ps with
  | [] => Ok best
  | p :: ps' => best' <- scan_pair w now best p ;; scan_pairs w now best' ps'
  end.

(** The scanning and selecting loops over the parsed snapshot [users]. *)
Definition scan (w : World) (now : Z) (users : list Entry) : outcome Best :=
  scan_pairs w now None (pairs users).

Fixpoint tags_eqb (l1 l2 : list string) : bool :=
  match l1, l2 with
  | [], [] => true
  | x :: l1', y :: l2' => String.eqb x y && tags_eqb l1' l2'
  | _, _ => false
  end.

(** Equality of the serialized members. *)
Definition entry_eqb (e1 e2 : Entry) : bool :=
  String.eqb (userId e1) (userId e2) && tags_eqb (intentTagIds e1) (intentTagIds e2)
  && (timestampJoined e1 =? timestampJoined e2) && (lastMatchTime e1 =? lastMatchTime e2).

(** [redis.zrem('matchmaking_queue', entry)] *)
Definition zrem (e : Entry) (q : list Entry) : list Entry :=
  filter (fun x => negb (entry_eqb x e)) q.

(** [for (const entry of entries) if (sel(parsed.userId)) await redis.zrem(...)] *)
Definition remove_loop (entries : list Entry) (sel : string -> bool) (w : World) : World :=
  fold_left (fun w e => if sel (userId e) then set_queue (zrem e (queue w)) w else w)
            entries w.

(** [createMatch(userA, userB)]: inserts an active [privateMatch] row
    ([matchedAt] defaults to now); the socket and push notifications that
    follow do not touch the state. *)
Definition createMatch (userA userB : Entry) (now : Z) (w : World) : World :=
  set_matches (mkMatch (next_id w) (userId userA) (userId userB) Active now None
               :: matches w) (S (next_id w)) w.

(** The stale-entry loop: users waiting more than two minutes are removed
    (the notification is not modelled). *)
Definition timeouts (now : Z) (users entries : list Entry) (w : World) : World :=
  fold_left (fun w user =>
               if QUEUE_TIMEOUT_MS <? now - timestampJoined user
               then remove_loop entries (String.eqb (userId user)) w
               else w) users w.

(** Everything after the scan: creation of the best pair's match, removal of
    both users' entries, then the stale-entry loop. *)
Definition after_scan (now : Z) (entries : list Entry) (best : Best) (w : World) : World :=
  let w1 := match best with
            | None => w
            | Some (userA, userB, _) =>
                remove_loop entries
                  (fun u => String.eqb u (userId userA) || String.eqb u (userId userB))
                  (createMatch userA userB now w)
            end in
  timeouts now entries entries w1.

(** A pass during whose scan a concurrent operation [mid] changes the
    world; the scan reads [w], what follows the scan runs on [mid w]. The
    [catch] around the body logs and drops every thrown error. *)
Definition pass_with (mid : World -> World) (now : Z) (w : World) : World :=
  let entries := queue w in
  if Nat.ltb (List.length entries) 2 then w else
  match scan w now entries with
  | Fail _ => mid w
  | Ok best => after_scan now entries best (mid w)
  end.

Definition run_pass (now : Z) (w : World) : World := pass_with (fun x => x) now w.

(** ** Route handlers of [routes/matches.js] (Redis queue) *)

Definition involves (m : MatchRecord) (u : string) : bool :=
  String.eqb (userOneId m) u || String.eqb (userTwoId m) u.

Definition is_active (m : MatchRecord) : bool := status_eqb (status m) Active.

(** [findFirst({ OR: [...], status: 'active' })] *)
Definition find_active (ms : list MatchRecord) (u : string) : option MatchRecord :=
  find (fun m => involves m u && is_active m) ms.

(** [orderBy: { endedAt: 'desc' }] as PostgreSQL sorts it (nulls first):
    [m] is strictly before [c]. Rows with equal keys keep table order. *)
Definition precedes_desc (m c : MatchRecord) : bool :=
  match endedAt m, endedAt c with
  | None, Some _ => true
  | Some x, Some y => y <? x
  | _, _ => false
  end.

Definition pick_first (c : option MatchRecord) (m : MatchRecord) : option MatchRecord :=
  match c with
  | None => Some m
  | Some c' => if precedes_desc m c' then Some m else c
  end.

(** [findFirst({ OR: [...], status: 'ended' }, orderBy endedAt desc)] *)
Definition last_ended (ms : list MatchRecord) (u : string) : option MatchRecord :=
  fold_left pick_first
    (filter (fun m => involves m u && status_eqb (status m) Ended) ms) None.

(** Order of [zrange]: by score, equal scores by member bytes. The member is
    [JSON.stringify({userId, ...})], so equal scores compare the user ids
    first; members that agree on both are kept in insertion order here. *)
Definition zbefore (e x : Entry) : bool :=
  (timestampJoined e <? timestampJoined x)
  || ((timestampJoined e =? timestampJoined x)
      && match String.compare (userId e) (userId x) with Lt => true | _ => false end).

Fixpoint zinsert (e : Entry) (q : list Entry) : list Entry :=
  match q with
  | [] => [e]
  | x :: q' => if zbefore e x then e :: q else x :: zinsert e q'
  end.

(** [redis.zadd('matchmaking_queue', Date.now(), member)]: the score is the
    join time written in the member, so re-adding an equal member changes
    nothing. *)
Definition zadd (e : Entry) (q : list Entry) : list Entry :=
  if existsb (entry_eqb e) q then q else zinsert e q.

Inductive Response :=
| RAlreadyActive (id : nat)       (* 409 *)
| RCooldown (retryAfter : Z)      (* 429 *)
| RWaiting.                       (* status 'waiting' *)

(** The cooldown test of [POST /request]: [Some waitSeconds] when the
    request is refused. *)
Definition cooldown_check (lastMatch : option MatchRecord) (t : Z) : option Z :=
  match lastMatch with
  | Some m =>
      match endedAt m with
      | Some endedT =>
          let cooldownEnd := endedT + MATCH_COOLDOWN_MS in
          if t <? cooldownEnd
          then Some (js_ceil (js_div (num (cooldownEnd - t)) (num 1000)))
          else None
      | None => None
      end
  | None => None
  end.

(** [POST /request] of [routes/matches.js], by user [u] at time [t] with
    intent tags [tags], after the middleware has let it through. *)
Definition request (u : string) (tags : list string) (t : Z) (w : World)
  : Response * World :=
  match find_active (matches w) u with
  | Some m => (RAlreadyActive (matchId m), w)
  | None =>
      let lastMatch := last_ended (matches w) u in
      match cooldown_check lastMatch t with
      | Some waitSeconds => (RCooldown waitSeconds, w)
      | None =>
          let lmt := match lastMatch with
                     | Some m => match endedAt m with Some e => e | None => 0 end
                     | None => 0
                     end in
          let queueEntry := mkEntry u tags t lmt in
          (RWaiting, set_queue (zadd queueEntry (queue w)) w)
      end
  end.

(** [POST /cancel]: removes every entry of [u] seen in the [zrange]. *)
Definition cancel (u : string) (w : World) : World :=
  remove_loop (queue w) (String.eqb u) w.

Definition set_status (id : nat) (st : MatchStatus) (t : Z) (ms : list MatchRecord)
  : list MatchRecord :=
  map (fun m => if Nat.eqb (matchId m) id
                then mkMatch (matchId m) (userOneId m) (userTwoId m) st (matchedAt m) (Some t)
                else m) ms.

(** [POST /:matchId/end] by user [u] at time [t]. *)
Definition end_match (id : nat) (u : string) (t : Z) (w : World) : World :=
  match find (fun m => Nat.eqb (matchId m) id && involves m u && is_active m) (matches w) with
  | None => w
  | Some _ => set_matches (set_status id Ended t (matches w)) (next_id w) w
  end.

(** [POST /reports/block] by [blocker] against [target] at time [t]. An
    empty [targetUserId] and a block of oneself are refused with 400. *)
Definition block_user (blocker target : string) (t : Z) (w : World) : World :=
  if String.eqb target EmptyString || String.eqb target blocker then w else
  if existsb (fun '(x, y) => String.eqb x blocker && String.eqb y target) (blocks w)
  then w
  else
    let w1 := set_blocks ((blocker, target) :: blocks w) w in
    match find (fun m => ((String.eqb (userOneId m) blocker && String.eqb (userTwoId m) target)
                          || (String.eqb (userOneId m) target && String.eqb (userTwoId m) blocker))
                         && is_active m) (matches w1) with
    | None => w1
    | Some m => set_matches (set_status (matchId m) Blocked t (matches w1)) (next_id w1) w1
    end.

(** The operations of the engine, each run to completion. [env_step]
    covers changes made by other parts of the application to the facts the
    engine only reads (reports, suspensions, lookup availability). *)
Inductive step : World -> World -> Prop :=
| step_request u tags t w : step w (snd (request u tags t w))
| step_pass now w : step w (run_pass now w)
| step_cancel u w : step w (cancel u w)
| step_end id u t w : step w (end_match id u t w)
| step_block a b t w : step w (block_user a b t w)
| env_step w w' :
    queue w' = queue w -> matches w' = matches w -> step w w'.

Inductive steps : World -> World -> Prop :=
| steps_refl w : steps w w
| steps_cons w1 w2 w3 : step w1 w2 -> steps w2 w3 -> steps w1 w3.

Definition init : World :=
  mkWorld [] [] [] [] [] (fun _ _ _ => false) 0.

(** Number of active rows user [u] takes part in. *)
Definition active_count (ms : list MatchRecord) (u : string) : nat :=
  List.length (filter (fun m => involves m u && is_active m) ms).

(** ** Request-time scoring of the DB-queue [POST /request]
    (src/unnamed/part_000) *)

(** A [matchQueue] row: user, intent tags, [joinedAt]. *)
Record QEntry := mkQEntry {
  q_userId : string;
  q_intentTagIds : list string;
  q_joinedAt : Z
}.

(** The score of [candidate] for the requesting user's entry [myEntry]
    (its existing row, or [{ joinedAt: new Date() }]), given the answer of
    the fatigue query. *)
Definition request_score (myEntry candidate : QEntry) (now : Z) (recentMatch : bool) : Z :=
  let s1 := if 0 <? Z.of_nat (List.length (shared_intents (q_intentTagIds myEntry)
                                                       (q_intentTagIds candidate)))
            then SHARED_INTENT else 0 in
  let waitTimeMs := now - q_joinedAt candidate in
  let s2 := s1 + js_floor (js_div (num waitTimeMs) (num 10000)) * TIME_WAITING_PER_10S in
  let joinDiff := Z.abs (q_joinedAt myEntry - q_joinedAt candidate) in
  let s3 := if joinDiff <? RECENT_ACTIVITY_WINDOW_MS then s2 + RECENT_ACTIVITY else s2 in
  if recentMatch then s3 + CONVERSATION_FATIGUE else s3.

(** ** [GET /status] of both versions of [routes/matches.js] *)

Inductive MatchState :=
| SMatched (id : nat)             (* status 'matched' *)
| SWaiting                        (* status 'waiting' *)
| SIdle.                          (* status 'idle' *)

(** Redis version: an active match first, then any queue member of [u]. *)
Definition status_of (u : string) (w : World) : MatchState :=
  match find_active (matches w) u with
  | Some m => SMatched (matchId m)
  | None => if existsb (fun e => String.eqb (userId e) u) (queue w) then SWaiting else SIdle
  end.

(** ** [POST /reports/unblock] (src/unnamed/part_002) *)

(** [blockedUser.deleteMany({ blockerId: me, blockedId: target })] *)
Definition unblock_user (blocker target : string) (w : World) : World :=
  set_blocks (filter (fun '(x, y) => negb (String.eqb x blocker && String.eqb y target))
                     (blocks w)) w.

(** ** The DB-queue routes of [routes/matches.js] (src/unnamed/part_000) *)

Inductive DbResponse :=
| DMatched (id : nat)             (* 'matched': the existing or the new match *)
| DCooldown (retryAfter : Z)      (* 429 *)
| DWaiting                        (* 'waiting': nobody else is queued *)
| DNoCompatible                   (* 'waiting': no candidate got through *)
| DError.                         (* a candidate-loop query threw: [next(error)] *)

(** [matchQueue.findUnique({ where: { userId } })] *)
Definition db_find_row (u : string) (mq : list QEntry) : option QEntry :=
  find (fun e => String.eqb (q_userId e) u) mq.

(** One iteration of the candidate loop of [POST /request], for requester [u]
    with intent tags [tags] and [myEntry.joinedAt = myJoinedAt]; [None] is
    [bestScore = -Infinity]. *)
Definition db_candidate (w : World) (u : string) (tags : list string) (myJoinedAt now : Z)
    (best : option (QEntry * Z)) (c : QEntry) : outcome (option (QEntry * Z)) :=
  if existsb (String.eqb (q_userId c)) (suspended w) then Ok best else
  block <- lookup w LBlocked u (q_userId c) (blocked_between (blocks w) u (q_userId c)) ;;
  if block then Ok best else
  report <- lookup w LReported u (q_userId c) (reported_between (reports w) u (q_userId c)) ;;
  if report then Ok best else
  recentMatch <- lookup w LRecentMatch u (q_userId c)
                   (recent_match (matches w) u (q_userId c) now) ;;
  let score := request_score (mkQEntry u tags myJoinedAt) c now recentMatch in
  match best with
  | None => Ok (Some (c, score))
  | Some (_, bestScore) => if bestScore <? score then Ok (Some (c, score)) else Ok best
  end.

Fixpoint db_scan (w : World) (u : string) (tags : list string) (myJoinedAt now : Z)
    (best : option (QEntry * Z)) (cs : list QEntry) : outcome (option (QEntry * Z)) :=
  match cs with
  | [] => Ok best
  | c :: cs' => best' <- db_candidate w u tags myJoinedAt now best c ;;
                db_scan w u tags myJoinedAt now best' cs'
  end.

(** [POST /request] of the DB-queue version, by [u] with intent tags [tags]
    at time [now], over the [matchQueue] table [mq] (rows in the order
    [findMany] returns them; a new row goes last). The failures modelled are
    those of the candidate loop's queries (block, report, fatigue lookups),
    after which the row written in step 4 stays written; the route's other
    queries are taken to succeed. *)
Definition db_request (u : string) (tags : list string) (now : Z) (mq : list QEntry)
    (w : World) : DbResponse * list QEntry * World :=
  match find_active (matches w) u with
  | Some m => (DMatched (matchId m), mq, w)
  | None =>
      match cooldown_check (last_ended (matches w) u) now with
      | Some waitSeconds => (DCooldown waitSeconds, mq, w)
      | None =>
          let existing := db_find_row u mq in
          let mq1 := match existing with
                     | Some _ => mq
                     | None => mq ++ [mkQEntry u tags now]
                     end in
          let waitingUsers := filter (fun e => negb (String.eqb (q_userId e) u)) mq1 in
          match waitingUsers with
          | [] => (DWaiting, mq1, w)
          | _ :: _ =>
              let myJoinedAt := match existing with Some e => q_joinedAt e | None => now end in
              match db_scan w u tags myJoinedAt now None waitingUsers with
              | Fail _ => (DError, mq1, w)
              | Ok None => (DNoCompatible, mq1, w)
              | Ok (Some (bestMatch, _)) =>
                  (DMatched (next_id w),
                   filter (fun e => negb (String.eqb (q_userId e) u
                                          || String.eqb (q_userId e) (q_userId bestMatch))) mq1,
                   set_matches (mkMatch (next_id w) u (q_userId bestMatch) Active now None
                                :: matches w) (S (next_id w)) w)
              end
          end
      end
  end.

(** [POST /cancel]: [matchQueue.deleteMany({ where: { userId } })] *)
Definition db_cancel (u : string) (mq : list QEntry) : list QEntry :=
  filter (fun e => negb (String.eqb (q_userId e) u)) mq.

(** [GET /status]: an active match first, then the user's queue row. *)
Definition db_status (u : string) (mq : list QEntry) (w : World) : MatchState :=
  match find_active (matches w) u with
  | Some m => SMatched (matchId m)
  | None => match db_find_row u mq with Some _ => SWaiting | None => SIdle end
  end.

(** The operations of the DB-queue deployment on the pair (queue table,
    world), each run to completion: [POST /request], [POST /cancel], match
    endings, blocks, and changes made elsewhere to the facts the routes only
    read. *)
Inductive db_step : list QEntry * World -> list QEntry * World -> Prop :=
| db_step_request u tags now mq w r mq' w' :
    db_request u tags now mq w = (r, mq', w') -> db_step (mq, w) (mq', w')
| db_step_cancel u mq w : db_step (mq, w) (db_cancel u mq, w)
| db_step_end id u t mq w : db_step (mq, w) (mq, end_match id u t w)
| db_step_block a b t mq w : db_step (mq, w) (mq, block_user a b t w)
| db_env_step mq w w' : matches w' = matches w -> db_step (mq, w) (mq, w').

Inductive db_steps : list QEntry * World -> list QEntry * World -> Prop :=
| db_steps_refl s : db_steps s s
| db_steps_cons s1 s2 s3 : db_step s1 s2 -> db_steps s2 s3 -> db_steps s1 s3.

(** ** Private messages: the [send_message] socket handler (chatServer.js)
    and [POST /:matchId/messages] (src/unnamed/part_000) *)

(** A JS string as the sequence of its UTF-16 code units, each a [Z] in
    [0, 65535]; [.length] counts code units. *)
Definition js_string := list Z.

(** A [privateMessage] row; the table is kept in creation order. *)
Record Message := mkMessage {
  msgMatchId : nat;
  senderId : string;
  messageText : js_string
}.

(** The code units [String.prototype.trim] strips: the JS WhiteSpace (tab,
    VT, FF, space, U+00A0, U+1680, U+2000 to U+200A, U+202F, U+205F,
    U+3000, U+FEFF) and LineTerminator (LF, CR, U+2028, U+2029) code
    points, all of them single code units. *)
Definition js_space (c : Z) : bool :=
  existsb (Z.eqb c) [9; 10; 11; 12; 13; 32; 160; 5760; 8232; 8233; 8239; 8287; 12288; 65279]
  || ((8192 <=? c) && (c <=? 8202)).

Fixpoint drop_space (l : js_string) : js_string :=
  match l with
  | [] => []
  | c :: l' => if js_space c then drop_space l' else l
  end.

(** [s.trim()] *)
Definition js_trim (s : js_string) : js_string :=
  rev (drop_space (rev (drop_space s))).

Inductive SocketSend :=
| SkipEmpty                       (* silent [return] *)
| ErrTooLong                      (* 'Message too long' *)
| ErrInactive                     (* 'Match is no longer active' *)
| Sent.                           (* stored and broadcast *)

(** [socket.on('send_message', ...)] for the connected user [sender], with a
    string [messageText] ([!messageText] holds only for the empty string,
    whose trim is empty too). *)
Definition socket_send_message (sender : string) (mid : nat) (text : js_string) (w : World)
    (msgs : list Message) : SocketSend * list Message :=
  if Nat.eqb (List.length (js_trim text)) 0 then (SkipEmpty, msgs)
  else if Nat.ltb 2000 (List.length text) then (ErrTooLong, msgs)
  else match find (fun m => Nat.eqb (matchId m) mid && is_active m) (matches w) with
       | None => (ErrInactive, msgs)
       | Some _ => (Sent, msgs ++ [mkMessage mid sender (js_trim text)])
       end.

Inductive PostMessage := P400 | P404 | P201.

(** [POST /:matchId/messages] by [sender], with a string [messageText]. *)
Definition post_message (sender : string) (mid : nat) (text : js_string) (w : World)
    (msgs : list Message) : PostMessage * list Message :=
  if Nat.eqb (List.length (js_trim text)) 0 then (P400, msgs)
  else match find (fun m => Nat.eqb (matchId m) mid && involves m sender && is_active m)
                  (matches w) with
       | None => (P404, msgs)
       | Some _ => (P201, msgs ++ [mkMessage mid sender (js_trim text)])
       end.

(** ** [validatePassword] ([utils/constants.js], src/unnamed/part_005)

    [/^(?=.*[a-z])(?=.*[A-Z])(?=.*\d)[a-zA-Z\d@$!%*?&]{8,}$/] on the bytes of
    the password. A non-ASCII character fails the character class in JS and
    its bytes fail it here. The lookaheads' [.] stops at line terminators,
    which the class refuses anyway. *)
Definition in_range (lo hi : nat) (c : ascii) : bool :=
  Nat.leb lo (nat_of_ascii c) && Nat.leb (nat_of_ascii c) hi.

Definition is_lower (c : ascii) : bool := in_range 97 122 c.
Definition is_upper (c : ascii) : bool := in_range 65 90 c.
Definition is_digit (c : ascii) : bool := in_range 48 57 c.

Definition pw_char (c : ascii) : bool :=
  is_lower c || is_upper c || is_digit c
  || existsb (Ascii.eqb c) ["@"; "$"; "!"; "%"; "*"; "?"; "&"]%char.

Definition validatePassword (password : string) : bool :=
  let l := list_ascii_of_string password in
  existsb is_lower l && existsb is_upper l && existsb is_digit l
  && forallb pw_char l && Nat.leb 8 (List.length l).

(** ** Statements read off the spec *)

(** Whether two tag lists have a tag in common. *)
Definition tags_intersect (ta tb : list string) : bool :=
  existsb (fun t => existsb (String.eqb t) tb) ta.

(** * Proofs *)

(** ** Arithmetic of the JS expressions *)

Lemma wait_bonus_floor (x : Z) :
  js_floor (js_div (js_div (num x) (num 1000)) (num 10)) = x / 10000.
Proof.
  unfold js_floor, js_div, num, inject_Z, Qdiv, Qinv, Qmult, Qfloor; simpl.
  rewrite !Z.mul_1_r; reflexivity.
Qed.

Lemma request_wait_bonus_floor (x : Z) :
  js_floor (js_div (num x) (num 10000)) = x / 10000.
Proof.
  unfold js_floor, js_div, num, inject_Z, Qdiv, Qinv, Qmult, Qfloor; simpl.
  rewrite !Z.mul_1_r; reflexivity.
Qed.

Lemma ceil_seconds (x : Z) :
  js_ceil (js_div (num x) (num 1000)) = - ((- x) / 1000).
Proof.
  unfold js_ceil, Qceiling, js_div, num, inject_Z, Qdiv, Qinv, Qmult, Qopp, Qfloor; simpl.
  rewrite !Z.mul_1_r; reflexivity.
Qed.

Lemma abs_diff_comm (x y : Z) : Z.abs (x - y) = Z.abs (y - x).
Proof. rewrite <- Z.abs_opp; f_equal; lia. Qed.

(** ** Tag intersection *)

Lemma existsb_eqb_In (t : string) (l : list string) :
  existsb (String.eqb t) l = true <-> In t l.
Proof.
  rewrite existsb_exists; split.
  - intros [x [Hx Heq]]; apply String.eqb_eq in Heq; subst; exact Hx.
  - intros H; exists t; split; [exact H | apply String.eqb_refl].
Qed.

Lemma tags_intersect_spec (ta tb : list string) :
  tags_intersect ta tb = true <-> exists t, In t ta /\ In t tb.
Proof.
  unfold tags_intersect; rewrite existsb_exists; split.
  - intros [t [Ha Hb]]; apply existsb_eqb_In in Hb; eauto.
  - intros [t [Ha Hb]]; exists t; split; [exact Ha | apply existsb_eqb_In; exact Hb].
Qed.

Lemma shared_intents_nonempty (ta tb : list string) :
  (0 <? Z.of_nat (List.length (shared_intents ta tb))) = tags_intersect ta tb.
Proof.
  apply eq_iff_eq_true; rewrite Z.ltb_lt, tags_intersect_spec.
  unfold shared_intents; split.
  - destruct (filter _ ta) as [| t l] eqn:E; simpl; [lia |].
    intros _; assert (Ht : In t (filter (fun id => existsb (String.eqb id) tb) ta))
      by (rewrite E; left; reflexivity).
    apply filter_In in Ht; destruct Ht as [Ha Hb]; apply existsb_eqb_In in Hb; eauto.
  - intros [t [Ha Hb]].
    assert (Ht : In t (filter (fun id => existsb (String.eqb id) tb) ta))
      by (apply filter_In; split; [exact Ha | apply existsb_eqb_In; exact Hb]).
    destruct (filter _ ta); [contradiction | simpl; lia].
Qed.

Lemma tags_intersect_comm (ta tb : list string) :
  tags_intersect ta tb = tags_intersect tb ta.
Proof.
  apply eq_iff_eq_true; rewrite !tags_intersect_spec; firstorder.
Qed.

Lemma recent_match_comm (ms : list MatchRecord) (a b : string) (now : Z) :
  recent_match ms a b now = recent_match ms b a now.
Proof.
  unfold recent_match; cbv zeta; induction ms as [| m ms IH]; cbn [existsb]; [reflexivity |].
  rewrite IH, (orb_comm (String.eqb (userOneId m) a && _)); reflexivity.
Qed.

Lemma recent_match_spec (ms : list MatchRecord) (a b : string) (now : Z) :
  recent_match ms a b now = true <->
  exists m, In m ms
            /\ ((userOneId m = a /\ userTwoId m = b) \/ (userOneId m = b /\ userTwoId m = a))
            /\ now - 7 * 86400000 <= matchedAt m.
Proof.
  unfold recent_match; rewrite existsb_exists; split.
  - intros [m [Hin H]]; exists m; split; [exact Hin |].
    apply andb_true_iff in H; destruct H as [H Hle]; apply Z.leb_le in Hle.
    apply orb_true_iff in H; unfold FATIGUE_WINDOW_DAYS, DAY_MS in Hle.
    destruct H as [H | H]; apply andb_true_iff in H; destruct H as [H1 H2];
      apply String.eqb_eq in H1, H2; split; auto; lia.
  - intros [m [Hin [H Hle]]]; exists m; split; [exact Hin |].
    apply andb_true_iff; split.
    + destruct H as [[-> ->] | [-> ->]]; rewrite !String.eqb_refl;
        [reflexivity | apply orb_true_r].
    + apply Z.leb_le; unfold FATIGUE_WINDOW_DAYS, DAY_MS; lia.
Qed.

(** ** C4: the worker's score formula *)

Lemma score_pair_unfold (a b : Entry) (now : Z) (recent : bool) :
  score_pair a b now recent
  = (if tags_intersect (intentTagIds a) (intentTagIds b) then 50 else 0)
    + (now - timestampJoined a) / 10000 + (now - timestampJoined b) / 10000
    + (if Z.abs (timestampJoined a - timestampJoined b) <? 120000 then 10 else 0)
    - (if recent then 40 else 0).
Proof.
  unfold score_pair; cbv zeta.
  rewrite shared_intents_nonempty, !wait_bonus_floor.
  unfold SHARED_INTENT, TIME_WAITING_PER_10S, RECENT_ACTIVITY,
    RECENT_ACTIVITY_WINDOW_MS, CONVERSATION_FATIGUE.
  change (2 * 60 * 1000) with 120000.
  destruct (tags_intersect _ _), (Z.abs _ <? _), recent; lia.
Qed.

(** C4. The worker scores a pair as 50 when the two tag lists intersect
    (once), plus one point per full 10 seconds each entry has waited, plus
    10 when the join instants are less than 2 minutes apart, minus 40 when a
    match between the two users (any status) was created in the last 7 days.
    Two entries sharing a tag and joined at the same instant score 60 at
    that instant; two entries with no shared tag, waits of 35 s and 5 s and
    no recent match score 3 plus the recency bonus (10 exactly when the
    join instants are less than 2 minutes apart). *)
Theorem score_pair_formula :
  (forall (a b : Entry) (now : Z) (ms : list MatchRecord),
     score_pair a b now (recent_match ms (userId a) (userId b) now)
     = (if tags_intersect (intentTagIds a) (intentTagIds b) then 50 else 0)
       + (now - timestampJoined a) / 10000 + (now - timestampJoined b) / 10000
       + (if Z.abs (timestampJoined a - timestampJoined b) <? 120000 then 10 else 0)
       - (if recent_match ms (userId a) (userId b) now then 40 else 0)
     /\ (tags_intersect (intentTagIds a) (intentTagIds b) = true
         <-> exists t, In t (intentTagIds a) /\ In t (intentTagIds b))
     /\ (recent_match ms (userId a) (userId b) now = true
         <-> exists m, In m ms
               /\ ((userOneId m = userId a /\ userTwoId m = userId b)
                   \/ (userOneId m = userId b /\ userTwoId m = userId a))
               /\ now - 7 * 86400000 <= matchedAt m))
  /\ (forall (a b : Entry) (ms : list MatchRecord),
        (exists t, In t (intentTagIds a) /\ In t (intentTagIds b)) ->
        timestampJoined a = timestampJoined b ->
        recent_match ms (userId a) (userId b) (timestampJoined a) = false ->
        score_pair a b (timestampJoined a)
          (recent_match ms (userId a) (userId b) (timestampJoined a)) = 60)
  /\ (forall (a b : Entry) (now : Z) (ms : list MatchRecord),
        ~ (exists t, In t (intentTagIds a) /\ In t (intentTagIds b)) ->
        now - timestampJoined a = 35000 ->
        now - timestampJoined b = 5000 ->
        recent_match ms (userId a) (userId b) now = false ->
        score_pair a b now (recent_match ms (userId a) (userId b) now)
        = 3 + (if Z.abs (timestampJoined a - timestampJoined b) <? 120000 then 10 else 0)).
Proof.
  split; [| split].
  - intros a b now ms; split; [apply score_pair_unfold |].
    split; [apply tags_intersect_spec | apply recent_match_spec].
  - intros a b ms Hs Hj Hr.
    rewrite Hr, score_pair_unfold.
    apply tags_intersect_spec in Hs; rewrite Hs, Hj, Z.sub_diag; reflexivity.
  - intros a b now ms Hs Ha Hb Hr.
    rewrite Hr, score_pair_unfold, Ha, Hb.
    destruct (tags_intersect _ _) eqn:E;
      [apply tags_intersect_spec in E; contradiction |].
    destruct (_ <? _); reflexivity.
Qed.

Lemma score_pair_formula_witness :
  let a := mkEntry "a"%string ["calm"; "work"]%string 1000 0 in
  let b := mkEntry "b"%string ["work"]%string 1000 0 in
  let c := mkEntry "c"%string [] 0 0 in
  let d := mkEntry "d"%string ["sleep"]%string 30000 0 in
  score_pair a b 1000 (recent_match [] "a"%string "b"%string 1000) = 60
  /\ score_pair c d 35000 (recent_match [] "c"%string "d"%string 35000) = 13.
Proof.
  intros a b c d; split.
  - apply (proj1 (proj2 score_pair_formula) a b []);
      [exists "work"%string; simpl; auto | reflexivity | reflexivity].
  - refine (eq_trans (proj2 (proj2 score_pair_formula) c d 35000 [] _ _ _ _) _);
      [simpl; intros [t [[] _]] | reflexivity | reflexivity | reflexivity | reflexivity].
Defined.

(** ** C5: symmetry of the score *)

Lemma request_score_unfold (me cand : QEntry) (now : Z) (recent : bool) :
  request_score me cand now recent
  = (if tags_intersect (q_intentTagIds me) (q_intentTagIds cand) then 50 else 0)
    + (now - q_joinedAt cand) / 10000
    + (if Z.abs (q_joinedAt me - q_joinedAt cand) <? 120000 then 10 else 0)
    - (if recent then 40 else 0).
Proof.
  unfold request_score; cbv zeta.
  rewrite shared_intents_nonempty, request_wait_bonus_floor.
  unfold SHARED_INTENT, TIME_WAITING_PER_10S, RECENT_ACTIVITY,
    RECENT_ACTIVITY_WINDOW_MS, CONVERSATION_FATIGUE.
  change (2 * 60 * 1000) with 120000.
  destruct (tags_intersect _ _), (Z.abs _ <? _), recent; lia.
Qed.

(** C5 (as amended). The worker's pair score is symmetric in the two
    entries. The request-time score is symmetric except for its wait bonus,
    which counts the candidate's wait only: swapping requester and candidate
    changes it by the difference of their wait bonuses. *)
Theorem score_symmetry :
  (forall (a b : Entry) (now : Z) (ms : list MatchRecord),
     score_pair a b now (recent_match ms (userId a) (userId b) now)
     = score_pair b a now (recent_match ms (userId b) (userId a) now))
  /\ (forall (me cand : QEntry) (now : Z) (recent : bool),
        request_score me cand now recent - request_score cand me now recent
        = (now - q_joinedAt cand) / 10000 - (now - q_joinedAt me) / 10000).
Proof.
  split.
  - intros a b now ms.
    rewrite !score_pair_unfold, tags_intersect_comm, (recent_match_comm ms (userId b)).
    rewrite (abs_diff_comm (timestampJoined b)); lia.
  - intros me cand now recent; rewrite !request_score_unfold.
    rewrite tags_intersect_comm, (abs_diff_comm (q_joinedAt cand)); lia.
Qed.

(** C5, counterexample: the request-time score of a requester who joined at
    0 for a candidate who joined at 100 s is 20 at 200 s, and 30 with the
    roles swapped. *)
Lemma score_symmetry_counterexample :
  let me := mkQEntry "u"%string ["work"]%string 0 in
  let cand := mkQEntry "v"%string ["sleep"]%string 100000 in
  request_score me cand 200000 false = 20
  /\ request_score cand me 200000 false = 30.
Proof. split; reflexivity. Qed.

(** ** The scan *)

(** The pair passes the three safety lookups. *)
Definition permitted (w : World) (a b : string) : bool :=
  negb (blocked_between (blocks w) a b) && negb (reported_between (reports w) a b)
  && negb (suspended_either (suspended w) a b).

(** The score the scan computes for a pair whose lookups succeed. *)
Definition pair_score (w : World) (now : Z) (a b : Entry) : Z :=
  score_pair a b now (recent_match (matches w) (userId a) (userId b) now).

Definition no_lookup_failure (w : World) : Prop :=
  forall l x y, lookup_fail w l x y = false.

Lemma scan_pair_cases (w : World) (now : Z) (best r : Best) (x y : Entry) :
  scan_pair w now best (x, y) = Ok r ->
  r = best \/ (r = Some (x, y, pair_score w now x y)
               /\ permitted w (userId x) (userId y) = true
               /\ beats (pair_score w now x y) best = true).
Proof.
  unfold scan_pair, checkBlocked, checkReported, checkSuspended, checkRecentMatch,
    lookup, bind, permitted, pair_score.
  destruct (lookup_fail w LBlocked _ _); [discriminate |].
  destruct (blocked_between _ _ _); [intros H; injection H; auto |].
  destruct (lookup_fail w LReported _ _); [discriminate |].
  destruct (reported_between _ _ _); [intros H; injection H; auto |].
  destruct (lookup_fail w LSuspended _ _); [discriminate |].
  destruct (suspended_either _ _ _); [intros H; injection H; auto |].
  destruct (lookup_fail w LRecentMatch _ _); [discriminate |].
  destruct (beats _ _) eqn:E; intros H; injection H; auto.
Qed.

Lemma scan_pair_nofail (w : World) (now : Z) (best : Best) (x y : Entry) :
  no_lookup_failure w ->
  scan_pair w now best (x, y)
  = Ok (if permitted w (userId x) (userId y) && beats (pair_score w now x y) best
        then Some (x, y, pair_score w now x y) else best).
Proof.
  intros Hok.
  unfold scan_pair, checkBlocked, checkReported, checkSuspended, checkRecentMatch,
    lookup, bind, permitted, pair_score.
  rewrite !Hok.
  destruct (blocked_between _ _ _), (reported_between _ _ _),
    (suspended_either _ _ _); simpl; try reflexivity.
  destruct (beats _ _); reflexivity.
Qed.

Lemma beats_trans (s1 s2 : Z) (best : Best) :
  beats s1 best = true -> s1 < s2 -> beats s2 best = true.
Proof.
  destruct best as [[[? ?] bs] |]; simpl; [| auto].
  rewrite !Z.ltb_lt; lia.
Qed.

(** What the loop over [ps] started from [best0] returns: either [best0]
    survived, or it is the first pair of [ps] reaching the maximum. *)
Lemma scan_pairs_first_max (w : World) (now : Z) (ps : list (Entry * Entry)) :
  no_lookup_failure w ->
  forall best0 a b s,
  scan_pairs w now best0 ps = Ok (Some (a, b, s)) ->
  (forall x y, In (x, y) ps -> permitted w (userId x) (userId y) = true ->
               pair_score w now x y <= s)
  /\ ((best0 = Some (a, b, s))
      \/ (exists l1 l2, ps = l1 ++ (a, b) :: l2
            /\ permitted w (userId a) (userId b) = true
            /\ s = pair_score w now a b
            /\ beats s best0 = true
            /\ (forall x y, In (x, y) l1 -> permitted w (userId x) (userId y) = true ->
                            pair_score w now x y < s))).
Proof.
  intros Hok; induction ps as [| [x y] ps IH]; intros best0 a b s H.
  - simpl in H; injection H; intros <-; split; [intros ? ? [] | left; reflexivity].
  - cbn [scan_pairs] in H; rewrite scan_pair_nofail in H by exact Hok.
    cbn [bind] in H.
    destruct (permitted w (userId x) (userId y)) eqn:Hp;
      destruct (beats (pair_score w now x y) best0) eqn:Hb; simpl in H;
      destruct (IH _ _ _ _ H) as [Hmax [Heq | [l1 [l2 [Hps [Hpab [Hs [Hbeat Hl1]]]]]]]].
    + (* [x, y] became the best and kept it *)
      injection Heq; intros; subst; split.
      * intros x' y' [Hxy | Hin] Hp'; [injection Hxy; intros; subst; lia | auto].
      * right; exists [], ps; repeat split; auto.
        intros ? ? [].
    + (* [x, y] became the best and a later pair beat it *)
      split.
      * intros x' y' [Hxy | Hin] Hp'; [| auto].
        injection Hxy; intros; subst; simpl in Hbeat; apply Z.ltb_lt in Hbeat; lia.
      * right; exists ((x, y) :: l1), l2; rewrite Hps; repeat split; auto.
        -- simpl in Hbeat; apply Z.ltb_lt in Hbeat; eapply beats_trans; eauto.
        -- intros x' y' [Hxy | Hin] Hp'; [| auto].
           injection Hxy; intros; subst; simpl in Hbeat; apply Z.ltb_lt in Hbeat; lia.
    + (* permitted but not better: [best0] unchanged and survived *)
      subst best0; split; [| left; reflexivity].
      intros x' y' [Hxy | Hin] Hp'; [| auto].
      injection Hxy; intros; subst; simpl in Hb; apply Z.ltb_ge in Hb; lia.
    + split.
      * intros x' y' [Hxy | Hin] Hp'; [| auto].
        injection Hxy; intros; subst.
        destruct best0 as [[[? ?] bs] |]; simpl in Hb, Hbeat; [| discriminate].
        apply Z.ltb_ge in Hb; apply Z.ltb_lt in Hbeat; lia.
      * right; exists ((x, y) :: l1), l2; rewrite Hps; repeat split; auto.
        intros x' y' [Hxy | Hin] Hp'; [| auto].
        injection Hxy; intros; subst.
        destruct best0 as [[[? ?] bs] |]; simpl in Hb, Hbeat; [| discriminate].
        apply Z.ltb_ge in Hb; apply Z.ltb_lt in Hbeat; lia.
    + subst best0; split; [| left; reflexivity].
      intros x' y' [Hxy | Hin] Hp'; [| auto].
      injection Hxy; intros; subst; congruence.
    + split.
      * intros x' y' [Hxy | Hin] Hp'; [injection Hxy; intros; subst; congruence | auto].
      * right; exists ((x, y) :: l1), l2; rewrite Hps; repeat split; auto.
        intros x' y' [Hxy | Hin] Hp'; [injection Hxy; intros; subst; congruence | auto].
    + subst best0; split; [| left; reflexivity].
      intros x' y' [Hxy | Hin] Hp'; [injection Hxy; intros; subst; congruence | auto].
    + split.
      * intros x' y' [Hxy | Hin] Hp'; [injection Hxy; intros; subst; congruence | auto].
      * right; exists ((x, y) :: l1), l2; rewrite Hps; repeat split; auto.
        intros x' y' [Hxy | Hin] Hp'; [injection Hxy; intros; subst; congruence | auto].
Qed.

Lemma scan_pairs_result (w : World) (now : Z) (ps : list (Entry * Entry)) :
  forall best0 a b s,
  scan_pairs w now best0 ps = Ok (Some (a, b, s)) ->
  best0 = Some (a, b, s)
  \/ (In (a, b) ps /\ permitted w (userId a) (userId b) = true
      /\ s = pair_score w now a b).
Proof.
  induction ps as [| [x y] ps IH]; intros best0 a b s H.
  - simpl in H; injection H; auto.
  - cbn [scan_pairs] in H.
    destruct (scan_pair w now best0 (x, y)) as [best1 |] eqn:E; [| discriminate].
    cbn [bind] in H.
    destruct (IH _ _ _ _ H) as [-> | [Hin Hp]]; [| right; simpl; auto].
    destruct (scan_pair_cases _ _ _ _ _ _ E) as [<- | [Heq [Hp _]]]; [left; reflexivity |].
    injection Heq; intros; subst; right; simpl; auto.
Qed.

Lemma scan_pair_fail (w : World) (now : Z) (best : Best) (x y : Entry) (e : Err) :
  scan_pair w now best (x, y) = Fail e ->
  exists l, lookup_fail w l (userId x) (userId y) = true.
Proof.
  unfold scan_pair, checkBlocked, checkReported, checkSuspended, checkRecentMatch,
    lookup, bind.
  destruct (lookup_fail w LBlocked _ _) eqn:E1; [eauto |].
  destruct (blocked_between _ _ _); [discriminate |].
  destruct (lookup_fail w LReported _ _) eqn:E2; [eauto |].
  destruct (reported_between _ _ _); [discriminate |].
  destruct (lookup_fail w LSuspended _ _) eqn:E3; [eauto |].
  destruct (suspended_either _ _ _); [discriminate |].
  destruct (lookup_fail w LRecentMatch _ _) eqn:E4; [eauto |].
  destruct (beats _ _); discriminate.
Qed.

Lemma scan_pairs_fail (w : World) (now : Z) (ps : list (Entry * Entry)) :
  forall best0 e, scan_pairs w now best0 ps = Fail e ->
  exists x y l, In (x, y) ps /\ lookup_fail w l (userId x) (userId y) = true.
Proof.
  induction ps as [| [x y] ps IH]; intros best0 e H; [discriminate |].
  cbn [scan_pairs] in H.
  destruct (scan_pair w now best0 (x, y)) as [best1 | e'] eqn:E; cbn [bind] in H.
  - destruct (IH _ _ H) as [x' [y' [l [Hin Hl]]]]; exists x', y', l; simpl; auto.
  - destruct (scan_pair_fail _ _ _ _ _ _ E) as [l Hl]; exists x, y, l; simpl; auto.
Qed.

Lemma remove_loop_matches (entries : list Entry) (sel : string -> bool) (w : World) :
  matches (remove_loop entries sel w) = matches w.
Proof.
  unfold remove_loop; revert w; induction entries as [| e es IH]; intros w; simpl;
    [reflexivity |].
  rewrite IH; destruct (sel (userId e)); reflexivity.
Qed.

Lemma timeouts_matches (now : Z) (users entries : list Entry) (w : World) :
  matches (timeouts now users entries w) = matches w.
Proof.
  unfold timeouts; revert w; induction users as [| u us IH]; intros w; simpl;
    [reflexivity |].
  rewrite IH; destruct (_ <? _); [apply remove_loop_matches | reflexivity].
Qed.

(** The matches after a pass: the scan's pair, if any, is added in front. *)
Lemma pass_with_matches (mid : World -> World) (now : Z) (w : World) :
  matches (pass_with mid now w)
  = if Nat.ltb (List.length (queue w)) 2 then matches w else
    match scan w now (queue w) with
    | Fail _ => matches (mid w)
    | Ok None => matches (mid w)
    | Ok (Some (a, b, _)) =>
        mkMatch (next_id (mid w)) (userId a) (userId b) Active now None :: matches (mid w)
    end.
Proof.
  unfold pass_with; destruct (Nat.ltb _ 2); [reflexivity |].
  destruct (scan w now (queue w)) as [[[[a b] s] |] | e]; [| | reflexivity];
    unfold after_scan; rewrite timeouts_matches; [| reflexivity].
  rewrite remove_loop_matches; reflexivity.
Qed.

(** ** C6: selection *)

(** C6 (as amended). When no lookup fails and the scan selects a pair, that
    pair passes the safety filter, carries its score, no permitted pair of
    the snapshot scores higher, and every permitted pair the loop visits
    before it scores strictly lower: ties go to the pair visited first in
    the snapshot's order. *)
Theorem scan_selects_first_maximum (w : World) (now : Z) (users : list Entry)
    (a b : Entry) (s : Z) :
  no_lookup_failure w ->
  scan w now users = Ok (Some (a, b, s)) ->
  exists l1 l2,
    pairs users = l1 ++ (a, b) :: l2
    /\ permitted w (userId a) (userId b) = true
    /\ s = pair_score w now a b
    /\ (forall x y, In (x, y) (pairs users) -> permitted w (userId x) (userId y) = true ->
                    pair_score w now x y <= s)
    /\ (forall x y, In (x, y) l1 -> permitted w (userId x) (userId y) = true ->
                    pair_score w now x y < s).
Proof.
  intros Hok H; unfold scan in H.
  destruct (scan_pairs_first_max w now _ Hok _ _ _ _ H)
    as [Hmax [Heq | [l1 [l2 [Hps [Hp [Hs [_ Hl1]]]]]]]]; [discriminate |].
  exists l1, l2; repeat split; auto.
Qed.

(** A (tag x) joined at 0 s, B and C (tag y) at 10 s and 20 s; at 100 s
    the pairs A-B, A-C and B-C score 29, 28 and 77. The scan keeps B-C, the
    third pair visited, and both pairs visited before it score lower. *)
Lemma scan_selects_first_maximum_witness :
  let eA := mkEntry "A"%string ["x"]%string 0 0 in
  let eB := mkEntry "B"%string ["y"]%string 10000 0 in
  let eC := mkEntry "C"%string ["y"]%string 20000 0 in
  let w := set_queue [eA; eB; eC] init in
  no_lookup_failure w /\ scan w 100000 [eA; eB; eC] = Ok (Some (eB, eC, 77))
  /\ (forall x y, In (x, y) (pairs [eA; eB; eC]) ->
        permitted w (userId x) (userId y) = true -> pair_score w 100000 x y <= 77)
  /\ pair_score w 100000 eA eB < 77 /\ pair_score w 100000 eA eC < 77.
Proof.
  cbv zeta.
  assert (Hok : no_lookup_failure (set_queue [mkEntry "A"%string ["x"]%string 0 0;
                                              mkEntry "B"%string ["y"]%string 10000 0;
                                              mkEntry "C"%string ["y"]%string 20000 0] init))
    by (intros l x y; reflexivity).
  assert (Hs : scan (set_queue [mkEntry "A"%string ["x"]%string 0 0;
                                mkEntry "B"%string ["y"]%string 10000 0;
                                mkEntry "C"%string ["y"]%string 20000 0] init) 100000
                 [mkEntry "A"%string ["x"]%string 0 0; mkEntry "B"%string ["y"]%string 10000 0;
                  mkEntry "C"%string ["y"]%string 20000 0]
               = Ok (Some (mkEntry "B"%string ["y"]%string 10000 0,
                           mkEntry "C"%string ["y"]%string 20000 0, 77)))
    by (vm_compute; reflexivity).
  destruct (scan_selects_first_maximum _ _ _ _ _ _ Hok Hs)
    as [l1 [l2 [Hps [_ [_ [Hmax Hl1]]]]]].
  split; [exact Hok | split; [exact Hs | split; [exact Hmax |]]].
  destruct l1 as [| p1 [| p2 [| p3 l1]]]; simpl in Hps; inversion Hps; subst;
    [| destruct l1; discriminate].
  split; apply Hl1; [left; reflexivity | reflexivity | right; left; reflexivity | reflexivity].
Defined.

(** C6, counterexample: entries A, B, C, D joined at 0, 10, 20 and 100 ms,
    A and D sharing a tag, B and C sharing another. At 1005 s the pairs A-D
    and B-C both score 260; the scan keeps A-D, visited first, although B-C
    joined earlier in total (30 < 100). Listing the same entries in the
    order B, C, A, D makes the scan keep B-C instead. *)
Lemma scan_tie_counterexample :
  let eA := mkEntry "A"%string ["x"]%string 0 0 in
  let eB := mkEntry "B"%string ["y"]%string 10 0 in
  let eC := mkEntry "C"%string ["y"]%string 20 0 in
  let eD := mkEntry "D"%string ["x"]%string 100 0 in
  let w := set_queue [eA; eB; eC; eD] init in
  scan w 1005000 [eA; eB; eC; eD] = Ok (Some (eA, eD, 260))
  /\ pair_score w 1005000 eB eC = 260
  /\ permitted w "B"%string "C"%string = true
  /\ timestampJoined eB + timestampJoined eC < timestampJoined eA + timestampJoined eD
  /\ scan w 1005000 [eB; eC; eA; eD] = Ok (Some (eB, eC, 260)).
Proof. repeat split; vm_compute; reflexivity. Qed.

(** ** C2: the safety filter and match creation *)

(** C2 (as amended). Every match a pass creates is between two users whose
    safety lookups, as read during the scan, found no block in either
    direction, no report in either direction and neither user suspended.
    This holds whatever a concurrent operation [mid] did to the world
    between the scan and [createMatch]: the filter is not run again there,
    so the pair is vetted against the snapshot [w], not against [mid w]. *)
Theorem pass_creates_only_permitted (mid : World -> World) (now : Z) (w : World)
    (m : MatchRecord) :
  In m (matches (pass_with mid now w)) -> ~ In m (matches w) -> ~ In m (matches (mid w)) ->
  permitted w (userOneId m) (userTwoId m) = true /\ status m = Active.
Proof.
  rewrite pass_with_matches.
  destruct (Nat.ltb _ 2); [contradiction |].
  destruct (scan w now (queue w)) as [[[[a b] s] |] | e] eqn:E; try contradiction.
  intros [<- | Hin] _ Hnot; [| contradiction].
  unfold scan in E; destruct (scan_pairs_result _ _ _ _ _ _ _ E) as [H | [_ [Hp _]]];
    [discriminate | simpl; auto].
Qed.

(** A and B wait; A blocks B while the pass scans. The match A-B is new,
    was permitted in the snapshot, and is vetoed in the world it is written
    to. *)
Lemma pass_creates_only_permitted_witness :
  let w := set_queue [mkEntry "A"%string [] 0 0; mkEntry "B"%string [] 1000 0] init in
  let mid := block_user "A"%string "B"%string 3000 in
  let m := mkMatch 0 "A"%string "B"%string Active 5000 None in
  In m (matches (pass_with mid 5000 w)) /\ ~ In m (matches w) /\ ~ In m (matches (mid w))
  /\ (permitted w "A"%string "B"%string = true /\ status m = Active)
  /\ permitted (mid w) "A"%string "B"%string = false.
Proof.
  intros w mid m.
  assert (H1 : In m (matches (pass_with mid 5000 w))) by (left; reflexivity).
  assert (H2 : ~ In m (matches w)) by (intros []).
  assert (H3 : ~ In m (matches (mid w))) by (intros []).
  split; [exact H1 | split; [exact H2 | split; [exact H3 | split]]].
  - exact (pass_creates_only_permitted mid 5000 w m H1 H2 H3).
  - reflexivity.
Defined.

(** C2, counterexample: A blocks B (the [POST /reports/block] route) while a
    pass is scanning. The pass still creates the active match A-B, although
    at that moment the filter vetoes the pair. *)
Lemma block_during_pass_counterexample :
  let w := set_queue [mkEntry "A"%string [] 0 0; mkEntry "B"%string [] 1000 0] init in
  let mid := block_user "A"%string "B"%string 3000 in
  In (mkMatch 0 "A"%string "B"%string Active 5000 None) (matches (pass_with mid 5000 w))
  /\ permitted (mid w) "A"%string "B"%string = false.
Proof. split; [left; reflexivity | reflexivity]. Qed.

(** ** C3: a failing lookup aborts the pass *)

(** C3. When the scan of a pass throws, the throw comes from a failing
    safety or fatigue lookup of a pair of the snapshot, and the pass leaves
    the queue and the match table exactly as they were. *)
Theorem pass_atomic_on_lookup_failure (now : Z) (w : World) (e : Err) :
  scan w now (queue w) = Fail e ->
  (exists x y l, In (x, y) (pairs (queue w)) /\ lookup_fail w l (userId x) (userId y) = true)
  /\ queue (run_pass now w) = queue w
  /\ matches (run_pass now w) = matches w.
Proof.
  intros H; split; [exact (scan_pairs_fail _ _ _ _ _ H) |].
  unfold run_pass, pass_with; rewrite H.
  destruct (Nat.ltb _ 2); split; reflexivity.
Qed.

Lemma pass_atomic_on_lookup_failure_witness :
  let w := mkWorld [mkEntry "A"%string [] 0 0; mkEntry "B"%string [] 1000 0]
                   [] [] [] [] (fun l _ _ => match l with LReported => true | _ => false end) 0 in
  scan w 5000 (queue w) = Fail LookupFailed
  /\ (exists x y l, In (x, y) (pairs (queue w)) /\ lookup_fail w l (userId x) (userId y) = true)
  /\ queue (run_pass 5000 w) = queue w
  /\ matches (run_pass 5000 w) = matches w.
Proof.
  intros w.
  assert (H : scan w 5000 (queue w) = Fail LookupFailed) by reflexivity.
  split; [exact H |].
  exact (pass_atomic_on_lookup_failure 5000 w LookupFailed H).
Defined.

(** ** C9: what the safety filter vetoes *)

Lemma blocked_between_spec (bs : list (string * string)) (a b : string) :
  blocked_between bs a b = true <-> In (a, b) bs \/ In (b, a) bs.
Proof.
  unfold blocked_between; rewrite existsb_exists; split.
  - intros [[x y] [Hin H]]; apply orb_true_iff in H.
    destruct H as [H | H]; apply andb_true_iff in H; destruct H as [H1 H2];
      apply String.eqb_eq in H1, H2; subst; auto.
  - intros [H | H]; [exists (a, b) | exists (b, a)]; split; auto;
      rewrite !String.eqb_refl; [reflexivity | apply orb_true_r].
Qed.

Lemma reported_between_spec (rs : list Report) (a b : string) :
  reported_between rs a b = true <->
  exists r, In r rs /\ ((reportedBy r = a /\ targetUserId r = b)
                        \/ (reportedBy r = b /\ targetUserId r = a)).
Proof.
  unfold reported_between; rewrite existsb_exists; split.
  - intros [r [Hin H]]; exists r; split; [exact Hin |]; apply orb_true_iff in H.
    destruct H as [H | H]; apply andb_true_iff in H; destruct H as [H1 H2];
      apply String.eqb_eq in H1, H2; auto.
  - intros [r [Hin H]]; exists r; split; [exact Hin |].
    destruct H as [[H1 H2] | [H1 H2]]; rewrite H1, H2, !String.eqb_refl;
      [reflexivity | apply orb_true_r].
Qed.

Lemma suspended_either_spec (su : list string) (a b : string) :
  suspended_either su a b = true <-> In a su \/ In b su.
Proof.
  unfold suspended_either; rewrite existsb_exists; split.
  - intros [x [Hin H]]; apply orb_true_iff in H.
    destruct H as [H | H]; apply String.eqb_eq in H; subst; auto.
  - intros [H | H]; [exists a | exists b]; split; auto;
      rewrite String.eqb_refl; [reflexivity | apply orb_true_r].
Qed.

(** The facts behind [permitted]: a block row in either direction, a report
    of any status in either direction, a suspension of either user. *)
Lemma permitted_false_iff (w : World) (a b : string) :
  permitted w a b = false <->
  In (a, b) (blocks w) \/ In (b, a) (blocks w)
  \/ (exists r, In r (reports w)
        /\ ((reportedBy r = a /\ targetUserId r = b)
            \/ (reportedBy r = b /\ targetUserId r = a)))
  \/ In a (suspended w) \/ In b (suspended w).
Proof.
  unfold permitted.
  pose proof (blocked_between_spec (blocks w) a b) as HB.
  pose proof (reported_between_spec (reports w) a b) as HR.
  pose proof (suspended_either_spec (suspended w) a b) as HS.
  destruct (blocked_between _ _ _), (reported_between _ _ _), (suspended_either _ _ _);
    simpl; split; intros H; try tauto; try discriminate;
    destruct HB as [HB1 HB2]; destruct HR as [HR1 HR2]; destruct HS as [HS1 HS2];
    destruct H as [H | [H | [H | H]]];
    solve [ discriminate (HB2 (or_introl H)) | discriminate (HB2 (or_intror H))
          | discriminate (HR2 H) | discriminate (HS2 H)
          | discriminate (HS2 (or_introl H)) | discriminate (HS2 (or_intror H)) ].
Qed.

(** C9 (as amended). When the lookups answer, the worker's filter vetoes a
    pair, so that the pair never replaces the scan's best pair and a scan
    from no pair keeps none, exactly when a block row exists between the
    two in either direction, a report of any status (pending, reviewed or
    resolved) exists between them in either direction, or either user is
    suspended; any other pair is scored and kept when it beats the best
    pair so far. The request-time filter of the DB-queue route vetoes a
    candidate on the same block and report rows, and on the suspension of
    the candidate only. *)
Theorem safety_filter_vetoes (w : World) (now : Z) :
  no_lookup_failure w ->
  (forall x y : Entry,
     let a := userId x in
     let b := userId y in
     let veto := In (a, b) (blocks w) \/ In (b, a) (blocks w)
                 \/ (exists r, In r (reports w)
                       /\ ((reportedBy r = a /\ targetUserId r = b)
                           \/ (reportedBy r = b /\ targetUserId r = a)))
                 \/ In a (suspended w) \/ In b (suspended w) in
     (scan_pair w now None (x, y) = Ok None <-> veto)
     /\ (veto -> forall best, scan_pair w now best (x, y) = Ok best)
     /\ (~ veto -> forall best,
           scan_pair w now best (x, y)
           = Ok (if beats (pair_score w now x y) best
                 then Some (x, y, pair_score w now x y) else best)))
  /\ (forall (u : string) (tags : list string) (j : Z) (c : QEntry),
     let b := q_userId c in
     db_candidate w u tags j now None c = Ok None <->
       In (u, b) (blocks w) \/ In (b, u) (blocks w)
       \/ (exists r, In r (reports w)
             /\ ((reportedBy r = u /\ targetUserId r = b)
                 \/ (reportedBy r = b /\ targetUserId r = u)))
       \/ In b (suspended w)).
Proof.
  intros Hok; split.
  - intros x y; cbv zeta.
    rewrite <- (permitted_false_iff w (userId x) (userId y)).
    destruct (permitted w (userId x) (userId y)) eqn:Ep.
    + rewrite (scan_pair_nofail w now None x y Hok), Ep; cbn [andb beats].
      split; [split; intros H; discriminate H |].
      split; [intros H; discriminate H |].
      intros _ best; rewrite (scan_pair_nofail w now best x y Hok), Ep; reflexivity.
    + rewrite (scan_pair_nofail w now None x y Hok), Ep; cbn [andb beats].
      split; [split; reflexivity |].
      split; [| intros H; exfalso; apply H; reflexivity].
      intros _ best; rewrite (scan_pair_nofail w now best x y Hok), Ep; reflexivity.
  - intros u tags j c; cbv zeta.
    pose proof (blocked_between_spec (blocks w) u (q_userId c)) as HB.
    pose proof (reported_between_spec (reports w) u (q_userId c)) as HR.
    pose proof (existsb_eqb_In (q_userId c) (suspended w)) as HS.
    unfold db_candidate, lookup, bind; rewrite !Hok.
    destruct (existsb (String.eqb (q_userId c)) (suspended w)) eqn:E1;
      [| destruct (blocked_between (blocks w) u (q_userId c)) eqn:E2;
         [| destruct (reported_between (reports w) u (q_userId c)) eqn:E3]];
      split; intros H; try reflexivity; try discriminate H.
    + right; right; right; apply HS; reflexivity.
    + destruct (proj1 HB eq_refl) as [H' | H']; [left | right; left]; exact H'.
    + right; right; left; apply HR; reflexivity.
    + exfalso; destruct H as [H | [H | [H | H]]].
      * discriminate (proj2 HB (or_introl H)).
      * discriminate (proj2 HB (or_intror H)).
      * discriminate (proj2 HR H).
      * discriminate (proj2 HS H).
Qed.

(** C9, counterexample: the only report between A and B has been resolved;
    no block, nobody suspended. The filter still vetoes the pair and the
    pass creates no match. *)
Lemma resolved_report_counterexample :
  let w := mkWorld [mkEntry "A"%string [] 0 0; mkEntry "B"%string [] 1000 0] []
                   [] [mkReport "A"%string "B"%string Resolved] []
                   (fun _ _ _ => false) 0 in
  permitted w "A"%string "B"%string = false
  /\ matches (run_pass 5000 w) = [].
Proof. split; reflexivity. Qed.

(** A and B share only a resolved report, C is free: A-B is vetoed, A-C is
    scored, and so is C as a DB-queue candidate of A, while B is not. *)
Lemma safety_filter_vetoes_witness :
  let w := mkWorld [] [] [] [mkReport "A"%string "B"%string Resolved] []
                   (fun _ _ _ => false) 0 in
  let x := mkEntry "A"%string [] 0 0 in
  let y := mkEntry "B"%string [] 0 0 in
  let z := mkEntry "C"%string [] 0 0 in
  scan_pair w 0 None (x, y) = Ok None
  /\ scan_pair w 0 None (x, z) = Ok (Some (x, z, 10))
  /\ db_candidate w "A"%string [] 0 0 None (mkQEntry "B"%string [] 0) = Ok None
  /\ db_candidate w "A"%string [] 0 0 None (mkQEntry "C"%string [] 0)
     = Ok (Some (mkQEntry "C"%string [] 0, 10)).
Proof.
  intros w x y z.
  assert (Hok : no_lookup_failure w) by (intros l a b; reflexivity).
  destruct (safety_filter_vetoes w 0 Hok) as [Hw Hdb].
  assert (Hr : exists r, In r (reports w)
                 /\ ((reportedBy r = "A"%string /\ targetUserId r = "B"%string)
                     \/ (reportedBy r = "B"%string /\ targetUserId r = "A"%string)))
    by (eexists; split; [left; reflexivity | left; split; reflexivity]).
  assert (Hnz : ~ (In ("A"%string, "C"%string) (blocks w) \/ In ("C"%string, "A"%string) (blocks w)
                   \/ (exists r, In r (reports w)
                         /\ ((reportedBy r = "A"%string /\ targetUserId r = "C"%string)
                             \/ (reportedBy r = "C"%string /\ targetUserId r = "A"%string)))
                   \/ In "A"%string (suspended w) \/ In "C"%string (suspended w))).
  { intros [[] | [[] | [[r [[<- | []] [[_ H] | [H _]]]] | [[] | []]]]]; discriminate. }
  split; [exact (proj2 (proj1 (Hw x y)) (or_intror (or_intror (or_introl Hr)))) |].
  split; [exact (proj2 (proj2 (Hw x z)) Hnz None) |].
  split; [exact (proj2 (Hdb "A"%string [] 0 (mkQEntry "B"%string [] 0))
                   (or_intror (or_intror (or_introl Hr)))) |].
  vm_compute; reflexivity.
Defined.

(** ** C7: cooldown *)

Lemma pick_first_fold_max (T : Z) (l : list MatchRecord) :
  forall c,
  (forall m, In m l -> exists e, endedAt m = Some e /\ e <= T) ->
  (c = None \/ exists c0 e0, c = Some c0 /\ endedAt c0 = Some e0 /\ e0 <= T) ->
  ((exists m, In m l /\ endedAt m = Some T)
   \/ (exists c0, c = Some c0 /\ endedAt c0 = Some T)) ->
  exists m, fold_left pick_first l c = Some m /\ endedAt m = Some T.
Proof.
  induction l as [| m l IH]; intros c Hl Hc Hw; simpl.
  - destruct Hw as [[m [[] _]] | [c0 [-> HT]]]; eauto.
  - destruct (Hl m (or_introl eq_refl)) as [em [Hem Hle]].
    assert (Hl' : forall m', In m' l -> exists e, endedAt m' = Some e /\ e <= T)
      by (intros; apply Hl; right; assumption).
    destruct Hc as [-> | [c0 [e0 [-> [He0 Hle0]]]]]; simpl.
    + apply IH; auto.
      * right; eauto.
      * destruct Hw as [[m' [[<- | Hin] HT]] | [c0 [H _]]]; [| left; eauto | discriminate].
        right; eauto.
    + unfold precedes_desc; rewrite Hem, He0.
      destruct (e0 <? em) eqn:Elt; apply IH; auto.
      * right; eauto.
      * apply Z.ltb_lt in Elt.
        destruct Hw as [[m' [[<- | Hin] HT]] | [c1 [H HT]]]; [right; eauto | left; eauto |].
        injection H; intros <-; rewrite He0 in HT; injection HT; intros; lia.
      * right; eauto.
      * apply Z.ltb_ge in Elt.
        destruct Hw as [[m' [[<- | Hin] HT]] | [c1 [H HT]]]; [| left; eauto | right; eauto].
        right; exists c0; split; [reflexivity |].
        rewrite He0; rewrite Hem in HT; injection HT; intros; f_equal; lia.
Qed.

Lemma find_none_intro {A : Type} (f : A -> bool) (l : list A) :
  (forall x, In x l -> f x = false) -> find f l = None.
Proof.
  induction l as [| x l IH]; intros H; simpl; [reflexivity |].
  rewrite (H x (or_introl eq_refl)); apply IH; intros; apply H; right; assumption.
Qed.

Lemma ceil_bounds (x : Z) :
  (- ((- x) / 1000) - 1) * 1000 < x <= - ((- x) / 1000) * 1000.
Proof.
  pose proof (Z.div_mod (- x) 1000 ltac:(lia)) as Hd.
  pose proof (Z.mod_pos_bound (- x) 1000 ltac:(lia)) as Hb.
  lia.
Qed.

(** C7. Let user [u] hold no active match, and let [T] be the latest end
    time of [u]'s ended matches. A request at [t < T + 5 min] is refused with
    [CooldownActive] and the remaining wait rounded up to whole seconds; a
    request at [t >= T + 5 min] is not refused for cooldown: the user is
    queued and gets [waiting]. *)
Theorem cooldown_enforcement (w : World) (u : string) (tags : list string) (t T : Z) :
  (forall m, In m (matches w) -> userOneId m = u \/ userTwoId m = u -> status m <> Active) ->
  (forall m, In m (matches w) -> userOneId m = u \/ userTwoId m = u -> status m = Ended ->
             exists e, endedAt m = Some e /\ e <= T) ->
  (exists m, In m (matches w) /\ (userOneId m = u \/ userTwoId m = u)
             /\ status m = Ended /\ endedAt m = Some T) ->
  (t < T + MATCH_COOLDOWN_MS ->
     exists s, fst (request u tags t w) = RCooldown s
       /\ s = - ((- (T + MATCH_COOLDOWN_MS - t)) / 1000)
       /\ (s - 1) * 1000 < T + MATCH_COOLDOWN_MS - t <= s * 1000)
  /\ (T + MATCH_COOLDOWN_MS <= t -> fst (request u tags t w) = RWaiting).
Proof.
  intros Hact Hle Hlast.
  assert (Hinv : forall m, involves m u = true <-> userOneId m = u \/ userTwoId m = u).
  { intros m; unfold involves; rewrite orb_true_iff, !String.eqb_eq; tauto. }
  assert (Hfa : find_active (matches w) u = None).
  { apply find_none_intro; intros m Hin.
    destruct (involves m u) eqn:Ei; [| reflexivity].
    pose proof (Hact m Hin (proj1 (Hinv m) Ei)) as Hna.
    unfold is_active; destruct (status m); simpl; congruence. }
  assert (Hlm : exists m, last_ended (matches w) u = Some m /\ endedAt m = Some T).
  { apply pick_first_fold_max; [| left; reflexivity |].
    - intros m Hin; apply filter_In in Hin; destruct Hin as [Hin Hf].
      apply andb_true_iff in Hf; destruct Hf as [Hi Hs].
      apply Hle; [exact Hin | apply Hinv; exact Hi | destruct (status m); simpl in Hs; congruence].
    - left; destruct Hlast as [m [Hin [Hu [Hs HT]]]]; exists m; split; [| exact HT].
      apply filter_In; split; [exact Hin |].
      rewrite (proj2 (Hinv m) Hu), Hs; reflexivity. }
  destruct Hlm as [m [Hm HT]].
  unfold request; rewrite Hfa, Hm; unfold cooldown_check; rewrite HT.
  split; intros Ht.
  - apply Z.ltb_lt in Ht; rewrite Ht.
    eexists; split; [reflexivity |]; rewrite ceil_seconds; split; [reflexivity |].
    apply ceil_bounds.
  - apply Z.ltb_ge in Ht; rewrite Ht; reflexivity.
Qed.

Lemma cooldown_enforcement_witness :
  let w := mkWorld [] [mkMatch 0 "u"%string "v"%string Ended 0 (Some 1000)] [] [] []
                   (fun _ _ _ => false) 1 in
  fst (request "u"%string [] 1500 w) = RCooldown 300
  /\ fst (request "u"%string [] 301000 w) = RWaiting.
Proof.
  intros w.
  assert (Hact : forall m, In m (matches w) ->
            userOneId m = "u"%string \/ userTwoId m = "u"%string -> status m <> Active)
    by (intros m [<- | []] _; discriminate).
  assert (Hle : forall m, In m (matches w) ->
            userOneId m = "u"%string \/ userTwoId m = "u"%string -> status m = Ended ->
            exists e, endedAt m = Some e /\ e <= 1000)
    by (intros m [<- | []] _ _; exists 1000; split; [reflexivity | lia]).
  assert (Hlast : exists m, In m (matches w)
            /\ (userOneId m = "u"%string \/ userTwoId m = "u"%string)
            /\ status m = Ended /\ endedAt m = Some 1000)
    by (eexists; split; [left; reflexivity | split; [left; reflexivity | split; reflexivity]]).
  destruct (cooldown_enforcement w "u"%string [] 1500 1000 Hact Hle Hlast) as [H1 _].
  destruct (cooldown_enforcement w "u"%string [] 301000 1000 Hact Hle Hlast) as [_ H2].
  split.
  - destruct (H1 ltac:(unfold MATCH_COOLDOWN_MS; lia)) as [s [Hs [Hv _]]].
    rewrite Hs, Hv; reflexivity.
  - apply H2; unfold MATCH_COOLDOWN_MS; lia.
Defined.

(** ** C1: active matches *)

Definition match_inv (w : World) : Prop :=
  (forall u, (active_count (matches w) u <= 1)%nat)
  /\ (forall e, In e (queue w) -> active_count (matches w) (userId e) = 0%nat).

Lemma pairs_In {A : Type} (l : list A) (x y : A) :
  In (x, y) (pairs l) -> In x l /\ In y l.
Proof.
  induction l as [| z l IH]; simpl; [intros [] |].
  intros H; apply in_app_or in H; destruct H as [H | H].
  - apply in_map_iff in H; destruct H as [y' [Hxy Hin]]; injection Hxy; intros; subst; auto.
  - destruct (IH H); auto.
Qed.

Lemma remove_loop_queue (entries : list Entry) (sel : string -> bool) (w : World) (x : Entry) :
  In x (queue (remove_loop entries sel w)) ->
  In x (queue w) /\ (In x entries -> sel (userId x) = false).
Proof.
  unfold remove_loop; revert w; induction entries as [| e es IH]; intros w; simpl.
  - intros H; split; [exact H | intros []].
  - intros H; destruct (IH _ H) as [H1 H2].
    destruct (sel (userId e)) eqn:Es.
    + simpl in H1; unfold zrem in H1; apply filter_In in H1; destruct H1 as [H1 Hne].
      split; [exact H1 |]; intros [<- | Hin]; [| auto].
      unfold entry_eqb in Hne; rewrite String.eqb_refl in Hne.
      assert (Ht : forall l, tags_eqb l l = true)
        by (induction l as [| t l IHl]; simpl; [reflexivity | rewrite String.eqb_refl; exact IHl]).
      rewrite Ht, !Z.eqb_refl in Hne; discriminate.
    + split; [exact H1 |]; intros [<- | Hin]; auto.
Qed.

Lemma timeouts_queue (now : Z) (users entries : list Entry) (w : World) (x : Entry) :
  In x (queue (timeouts now users entries w)) -> In x (queue w).
Proof.
  unfold timeouts; revert w; induction users as [| v vs IH]; intros w; simpl; [auto |].
  intros H; apply IH in H; destruct (_ <? _); [apply (remove_loop_queue _ _ _ _ H) | exact H].
Qed.

Lemma zadd_In (e x : Entry) (q : list Entry) : In x (zadd e q) -> x = e \/ In x q.
Proof.
  unfold zadd; destruct (existsb _ _); [auto |].
  induction q as [| y q IH]; simpl; [intuition |].
  destruct (zbefore e y); simpl; intuition.
Qed.

Lemma active_count_zero (ms : list MatchRecord) (u : string) :
  find_active ms u = None -> active_count ms u = 0%nat.
Proof.
  unfold find_active, active_count; induction ms as [| m ms IH]; simpl; [reflexivity |].
  destruct (involves m u && is_active m); [discriminate | exact IH].
Qed.

Lemma active_count_cons (m : MatchRecord) (ms : list MatchRecord) (u : string) :
  active_count (m :: ms) u
  = ((if involves m u && is_active m then 1 else 0) + active_count ms u)%nat.
Proof. unfold active_count; simpl; destruct (involves m u && is_active m); reflexivity. Qed.

Lemma filter_map_length_le {A : Type} (P : A -> bool) (f : A -> A) (l : list A) :
  (forall x, P (f x) = true -> P x = true) ->
  (List.length (filter P (map f l)) <= List.length (filter P l))%nat.
Proof.
  intros Hf; induction l as [| x l IH]; simpl; [lia |].
  destruct (P (f x)) eqn:E1; [rewrite (Hf x E1); simpl; lia |].
  destruct (P x); simpl; lia.
Qed.

Lemma active_count_set_status (id : nat) (st : MatchStatus) (t : Z)
    (ms : list MatchRecord) (u : string) :
  st <> Active -> (active_count (set_status id st t ms) u <= active_count ms u)%nat.
Proof.
  intros Hst; unfold active_count, set_status; apply filter_map_length_le.
  intros m; destruct (Nat.eqb (matchId m) id); [| auto].
  unfold is_active; simpl; destruct st; [congruence | |];
    rewrite andb_false_r; discriminate.
Qed.

Lemma match_inv_init : match_inv init.
Proof. split; [intros u; cbn; lia | intros e []]. Qed.

Lemma match_inv_request (u : string) (tags : list string) (t : Z) (w : World) :
  match_inv w -> match_inv (snd (request u tags t w)).
Proof.
  intros [Hc Hq]; unfold request.
  destruct (find_active (matches w) u) eqn:Ef; [split; auto |].
  destruct (cooldown_check _ t); [split; auto |].
  simpl; split; [exact Hc |]; intros e He.
  destruct (zadd_In _ _ _ He) as [-> | Hin]; [apply active_count_zero; exact Ef | auto].
Qed.

Lemma match_inv_pass (now : Z) (w : World) : match_inv w -> match_inv (run_pass now w).
Proof.
  intros [Hc Hq].
  assert (Hqs : forall x, In x (queue (run_pass now w)) -> In x (queue w)).
  { intros x; unfold run_pass, pass_with.
    destruct (Nat.ltb _ 2); [auto |].
    destruct (scan w now (queue w)) as [[[[a b] s] |] | e]; [| | auto];
      unfold after_scan; intros H; apply timeouts_queue in H; [| exact H].
    apply remove_loop_queue in H; exact (proj1 H). }
  pose proof (pass_with_matches (fun x => x) now w) as Hm.
  unfold run_pass, pass_with in Hqs, Hm |- *.
  destruct (Nat.ltb _ 2); [split; auto |].
  destruct (scan w now (queue w)) as [[[[a b] s] |] | e] eqn:Es;
    [| split; rewrite Hm; auto | split; auto].
  unfold scan in Es; destruct (scan_pairs_result _ _ _ _ _ _ _ Es) as [H | [Hab _]];
    [discriminate |].
  destruct (pairs_In _ _ _ Hab) as [Ha Hb].
  assert (Hnew : forall v, involves (mkMatch (next_id w) (userId a) (userId b) Active now None) v
                           = String.eqb (userId a) v || String.eqb (userId b) v)
    by reflexivity.
  split.
  - intros v; rewrite Hm, active_count_cons; simpl is_active; rewrite Hnew, andb_true_r.
    destruct (String.eqb (userId a) v) eqn:Ea; simpl.
    + apply String.eqb_eq in Ea; subst v; rewrite (Hq a Ha); lia.
    + destruct (String.eqb (userId b) v) eqn:Eb; simpl; [| apply Hc].
      apply String.eqb_eq in Eb; subst v; rewrite (Hq b Hb); lia.
  - intros x Hx; rewrite Hm, active_count_cons; simpl is_active; rewrite Hnew, andb_true_r.
    unfold after_scan in Hx; apply timeouts_queue in Hx.
    apply remove_loop_queue in Hx; destruct Hx as [Hx Hsel].
    simpl in Hx; specialize (Hsel Hx).
    rewrite (String.eqb_sym (userId a)), (String.eqb_sym (userId b)).
    apply orb_false_iff in Hsel; destruct Hsel as [-> ->]; simpl; apply Hq; exact Hx.
Qed.

Lemma match_inv_queue_only (w w' : World) :
  match_inv w -> matches w' = matches w -> (forall x, In x (queue w') -> In x (queue w)) ->
  match_inv w'.
Proof. intros [Hc Hq] Hm Hs; split; rewrite Hm; auto. Qed.

Lemma match_inv_set_status (w : World) (id : nat) (st : MatchStatus) (t : Z) :
  match_inv w -> st <> Active ->
  match_inv (set_matches (set_status id st t (matches w)) (next_id w) w).
Proof.
  intros [Hc Hq] Hst; split; simpl.
  - intros u; eapply Nat.le_trans; [apply active_count_set_status; exact Hst | apply Hc].
  - intros e He; pose proof (active_count_set_status id st t (matches w) (userId e) Hst).
    rewrite (Hq e He) in H; lia.
Qed.

Lemma match_inv_step (w w' : World) : step w w' -> match_inv w -> match_inv w'.
Proof.
  intros Hs Hi; destruct Hs as [u tags t w | now w | u w | id u t w | a b t w | w w' Hq Hm].
  - apply match_inv_request; exact Hi.
  - apply match_inv_pass; exact Hi.
  - apply (match_inv_queue_only w); [exact Hi | apply remove_loop_matches |].
    intros x Hx; exact (proj1 (remove_loop_queue _ _ _ _ Hx)).
  - unfold end_match; destruct (find _ _); [| exact Hi].
    apply match_inv_set_status; [exact Hi | discriminate].
  - unfold block_user; destruct (_ || _); [exact Hi |].
    destruct (existsb _ _); [exact Hi |].
    assert (Hi1 : match_inv (set_blocks ((a, b) :: blocks w) w)) by exact Hi.
    destruct (find _ _); [| exact Hi1].
    apply match_inv_set_status; [exact Hi1 | discriminate].
  - apply (match_inv_queue_only w); [exact Hi | exact Hm |]; rewrite Hq; auto.
Qed.

Lemma match_inv_steps (w w' : World) : steps w w' -> match_inv w -> match_inv w'.
Proof.
  induction 1 as [w | w1 w2 w3 Hs Hss IH]; [auto |].
  intros Hi; apply IH; exact (match_inv_step _ _ Hs Hi).
Qed.

(** ** C8 and C10: repeated requests *)

(** C8, failing input: user u, with no match history, requests at 1000 ms
    and again at 2000 ms. Both requests answer [waiting] and the queue then
    holds two entries for u. *)
Lemma repeated_request_duplicates_entry :
  let w1 := snd (request "u"%string [] 1000 init) in
  fst (request "u"%string [] 1000 init) = RWaiting
  /\ fst (request "u"%string [] 2000 w1) = RWaiting
  /\ List.length (filter (fun e => String.eqb (userId e) "u"%string)
                         (queue (snd (request "u"%string [] 2000 w1)))) = 2%nat.
Proof. repeat split; reflexivity. Qed.

(** C10, failing input: after the two requests above, the next pass pairs
    u's two entries and creates an active match of u with u. *)
Lemma repeated_request_self_match :
  let w2 := snd (request "u"%string [] 2000 (snd (request "u"%string [] 1000 init))) in
  matches (run_pass 3000 w2) = [mkMatch 0 "u"%string "u"%string Active 3000 None]
  /\ queue (run_pass 3000 w2) = [].
Proof. split; reflexivity. Qed.

(** * Further properties of the code *)

(** ** Queue removal *)

Lemma tags_eqb_true (l1 l2 : list string) : tags_eqb l1 l2 = true -> l1 = l2.
Proof.
  revert l2; induction l1 as [| x l1 IH]; intros [| y l2]; simpl; try discriminate;
    [reflexivity |].
  intros H; apply andb_true_iff in H; destruct H as [H1 H2].
  apply String.eqb_eq in H1; rewrite H1, (IH _ H2); reflexivity.
Qed.

Lemma entry_eqb_true (a b : Entry) : entry_eqb a b = true -> a = b.
Proof.
  destruct a as [u1 t1 j1 l1], b as [u2 t2 j2 l2]; unfold entry_eqb; simpl.
  rewrite !andb_true_iff, String.eqb_eq, !Z.eqb_eq.
  intros [[[-> Ht] ->] ->]; rewrite (tags_eqb_true _ _ Ht); reflexivity.
Qed.

(** What the removal loop keeps: the entries not seen in [entries] and
    those whose user is not selected. *)
Lemma remove_loop_spec (entries : list Entry) (sel : string -> bool) (w : World) (x : Entry) :
  In x (queue (remove_loop entries sel w)) <->
  In x (queue w) /\ (In x entries -> sel (userId x) = false).
Proof.
  split; [apply remove_loop_queue |].
  unfold remove_loop; revert w; induction entries as [| e es IH]; intros w [Hx Hs]; simpl;
    [exact Hx |].
  apply IH; split; [| intros Hin; apply Hs; right; exact Hin].
  destruct (sel (userId e)) eqn:Es; [| exact Hx].
  simpl; unfold zrem; apply filter_In; split; [exact Hx |].
  destruct (entry_eqb x e) eqn:Ee; [| reflexivity].
  apply entry_eqb_true in Ee; subst x; rewrite (Hs (or_introl eq_refl)) in Es; discriminate.
Qed.

Lemma timeouts_spec (now : Z) (users entries : list Entry) (w : World) (x : Entry) :
  In x (queue (timeouts now users entries w)) <->
  In x (queue w)
  /\ (In x entries -> forall v, In v users ->
      QUEUE_TIMEOUT_MS < now - timestampJoined v -> userId v <> userId x).
Proof.
  unfold timeouts; revert w; induction users as [| v vs IH]; intros w; simpl.
  - split; [intros H; split; [exact H | intros _ v []] | tauto].
  - rewrite IH; destruct (QUEUE_TIMEOUT_MS <? now - timestampJoined v) eqn:Ev.
    + rewrite remove_loop_spec; apply Z.ltb_lt in Ev; split.
      * intros [[Hx Hs] Hr]; split; [exact Hx |].
        intros Hin v' [<- | Hv'] Ht; [| apply Hr; auto].
        apply String.eqb_neq; exact (Hs Hin).
      * intros [Hx Hr]; split; [split; [exact Hx |] |].
        -- intros Hin; apply String.eqb_neq; exact (Hr Hin v (or_introl eq_refl) Ev).
        -- intros Hin v' Hv' Ht; exact (Hr Hin v' (or_intror Hv') Ht).
    + apply Z.ltb_ge in Ev; split.
      * intros [Hx Hr]; split; [exact Hx |].
        intros Hin v' [<- | Hv'] Ht; [lia | apply Hr; auto].
      * intros [Hx Hr]; split; [exact Hx |].
        intros Hin v' Hv' Ht; exact (Hr Hin v' (or_intror Hv') Ht).
Qed.

(** The queue after a pass whose scan went through. *)
Lemma pass_queue_spec (now : Z) (w : World) (best : Best) :
  (2 <= List.length (queue w))%nat -> scan w now (queue w) = Ok best ->
  forall x, In x (queue (run_pass now w)) <->
    In x (queue w)
    /\ match best with
       | Some (a, b, _) => userId x <> userId a /\ userId x <> userId b
       | None => True
       end
    /\ (forall y, In y (queue w) -> userId y = userId x ->
                  now - timestampJoined y <= QUEUE_TIMEOUT_MS).
Proof.
  intros Hlen Hs x; unfold run_pass, pass_with.
  replace (Nat.ltb (List.length (queue w)) 2) with false
    by (symmetry; apply Nat.ltb_ge; exact Hlen).
  rewrite Hs; unfold after_scan; rewrite timeouts_spec.
  assert (Hst : (forall y, In y (queue w) -> userId y = userId x ->
                           now - timestampJoined y <= QUEUE_TIMEOUT_MS)
                <-> (forall v, In v (queue w) ->
                      QUEUE_TIMEOUT_MS < now - timestampJoined v -> userId v <> userId x)).
  { split; intros H v Hv.
    - intros Ht Heq; specialize (H v Hv Heq); lia.
    - intros Heq; destruct (Z.le_gt_cases (now - timestampJoined v) QUEUE_TIMEOUT_MS)
        as [Hle | Hgt]; [exact Hle | exfalso; exact (H v Hv Hgt Heq)]. }
  destruct best as [[[a b] s] |].
  - rewrite remove_loop_spec; cbv beta.
    change (queue (createMatch a b now w)) with (queue w).
    assert (Hsel : (String.eqb (userId x) (userId a) || String.eqb (userId x) (userId b)) = false
                   <-> userId x <> userId a /\ userId x <> userId b)
      by (rewrite orb_false_iff, !String.eqb_neq; tauto).
    rewrite Hsel, Hst; tauto.
  - rewrite Hst; tauto.
Qed.

Lemma pairs_distinct {A B : Type} (f : A -> B) (l : list A) (x y : A) :
  NoDup (map f l) -> In (x, y) (pairs l) -> f x <> f y.
Proof.
  induction l as [| z l IH]; simpl; [intros _ [] |].
  intros Hnd H; inversion Hnd as [| ? ? Hnin Hnd']; subst.
  apply in_app_or in H; destruct H as [H | H]; [| exact (IH Hnd' H)].
  apply in_map_iff in H; destruct H as [y' [Hxy Hin]]; injection Hxy; intros <- <-.
  intros Heq; apply Hnin; rewrite Heq; apply in_map; exact Hin.
Qed.

(** ** The background pass *)

(** A pass never adds a queue entry, never drops or alters a match record,
    and adds at most one. *)
Theorem pass_only_removes_entries_and_adds_one_match (now : Z) (w : World) :
  (forall x, In x (queue (run_pass now w)) -> In x (queue w))
  /\ (forall m, In m (matches w) -> In m (matches (run_pass now w)))
  /\ (List.length (matches (run_pass now w)) <= S (List.length (matches w)))%nat.
Proof.
  split.
  - intros x; unfold run_pass, pass_with.
    destruct (Nat.ltb _ 2); [auto |].
    destruct (scan w now (queue w)) as [[[[a b] s] |] | e]; [| | auto];
      unfold after_scan; intros H; apply timeouts_queue in H; [| exact H].
    apply remove_loop_queue in H; exact (proj1 H).
  - unfold run_pass; rewrite pass_with_matches.
    destruct (Nat.ltb _ 2); [auto |].
    destruct (scan w now (queue w)) as [[[[a b] s] |] | e]; simpl; split; auto; lia.
Qed.

(** When a pass gets through its scan, an entry stays in the queue exactly
    when its user is not one of the matched pair and no entry of that user
    in the snapshot has waited more than two minutes. *)
Theorem pass_queue_after_scan (now : Z) (w : World) (best : Best) :
  (2 <= List.length (queue w))%nat -> scan w now (queue w) = Ok best ->
  forall x, In x (queue (run_pass now w)) <->
    In x (queue w)
    /\ match best with
       | Some (a, b, _) => userId x <> userId a /\ userId x <> userId b
       | None => True
       end
    /\ (forall y, In y (queue w) -> userId y = userId x ->
                  now - timestampJoined y <= QUEUE_TIMEOUT_MS).
Proof. exact (pass_queue_spec now w best). Qed.

Lemma pass_queue_after_scan_witness :
  let w := set_queue [mkEntry "A"%string [] 0 0; mkEntry "B"%string [] 1000 0;
                      mkEntry "C"%string [] 200000 0] init in
  (2 <= List.length (queue w))%nat
  /\ scan w 300000 (queue w)
     = Ok (Some (mkEntry "A"%string [] 0 0, mkEntry "B"%string [] 1000 0, 69))
  /\ (In (mkEntry "C"%string [] 200000 0) (queue (run_pass 300000 w))
      <-> In (mkEntry "C"%string [] 200000 0) (queue w)
          /\ ("C"%string <> "A"%string /\ "C"%string <> "B"%string)
          /\ (forall y, In y (queue w) -> userId y = "C"%string ->
                        300000 - timestampJoined y <= QUEUE_TIMEOUT_MS)).
Proof.
  intros w.
  assert (H1 : (2 <= List.length (queue w))%nat) by (simpl; lia).
  assert (H2 : scan w 300000 (queue w)
               = Ok (Some (mkEntry "A"%string [] 0 0, mkEntry "B"%string [] 1000 0, 69)))
    by (vm_compute; reflexivity).
  split; [exact H1 | split; [exact H2 |]].
  exact (pass_queue_after_scan 300000 w _ H1 H2 (mkEntry "C"%string [] 200000 0)).
Defined.



(** With at most one entry per user in the queue, a pass never matches a
    user with themselves. *)
Theorem pass_no_self_match (now : Z) (w : World) :
  NoDup (map userId (queue w)) ->
  forall m, In m (matches (run_pass now w)) -> In m (matches w) \/ userOneId m <> userTwoId m.
Proof.
  intros Hnd m; unfold run_pass; rewrite pass_with_matches.
  destruct (Nat.ltb _ 2); [auto |].
  destruct (scan w now (queue w)) as [[[[a b] s] |] | e] eqn:E; [| auto | auto].
  intros [<- | Hin]; [right | left; exact Hin].
  unfold scan in E; destruct (scan_pairs_result _ _ _ _ _ _ _ E) as [H | [Hab _]];
    [discriminate |].
  exact (pairs_distinct userId _ _ _ Hnd Hab).
Qed.

Lemma pass_no_self_match_witness :
  let w := set_queue [mkEntry "A"%string [] 0 0; mkEntry "B"%string [] 1000 0] init in
  let m := mkMatch 0 "A"%string "B"%string Active 5000 None in
  NoDup (map userId (queue w)) /\ In m (matches (run_pass 5000 w))
  /\ (In m (matches w) \/ userOneId m <> userTwoId m).
Proof.
  intros w m.
  assert (H1 : NoDup (map userId (queue w))).
  { simpl; constructor; [intros [H | []]; discriminate | constructor; [intros [] | constructor]]. }
  assert (H2 : In m (matches (run_pass 5000 w))) by (left; reflexivity).
  split; [exact H1 | split; [exact H2 |]].
  exact (pass_no_self_match 5000 w H1 m H2).
Defined.

(** ** Route handlers of [routes/matches.js] (Redis queue) *)

Lemma zinsert_In (e x : Entry) (q : list Entry) : x = e \/ In x q -> In x (zinsert e q).
Proof.
  induction q as [| y q IH]; simpl; [intuition |].
  destruct (zbefore e y); simpl; intuition.
Qed.

Lemma zadd_keeps (e x : Entry) (q : list Entry) : x = e \/ In x q -> In x (zadd e q).
Proof.
  unfold zadd; destruct (existsb (entry_eqb e) q) eqn:E; [| apply zinsert_In].
  intros [-> | H]; [| exact H].
  apply existsb_exists in E; destruct E as [y [Hy Hey]].
  apply entry_eqb_true in Hey; subst y; exact Hy.
Qed.

Lemma find_some_intro {A : Type} (f : A -> bool) (l : list A) (x : A) :
  In x l -> f x = true -> exists y, find f l = Some y.
Proof.
  induction l as [| z l IH]; simpl; [intros [] |].
  intros [<- | Hin] Hx; [rewrite Hx; eauto |].
  destruct (f z); [eauto | exact (IH Hin Hx)].
Qed.

Lemma filter_one {A : Type} (P : A -> bool) (l : list A) (a : A) :
  In a l -> P a = true -> (1 <= List.length (filter P l))%nat.
Proof.
  intros Ha Pa; assert (H : In a (filter P l)) by (apply filter_In; split; assumption).
  destruct (filter P l); [destruct H | simpl; lia].
Qed.

Lemma filter_two {A : Type} (P : A -> bool) (l : list A) (a b : A) :
  In a l -> In b l -> a <> b -> P a = true -> P b = true ->
  (2 <= List.length (filter P l))%nat.
Proof.
  induction l as [| x l IH]; simpl; [intros [] |].
  intros [<- | Ha] [<- | Hb] Hne Pa Pb.
  - contradiction.
  - rewrite Pa; simpl; pose proof (filter_one P l b Hb Pb); lia.
  - rewrite Pb; simpl; pose proof (filter_one P l a Ha Pa); lia.
  - destruct (P x); simpl; [specialize (IH Ha Hb Hne Pa Pb); lia | exact (IH Ha Hb Hne Pa Pb)].
Qed.

Lemma set_status_In (id : nat) (st : MatchStatus) (t : Z) (ms : list MatchRecord)
    (r : MatchRecord) :
  In r (set_status id st t ms) ->
  exists r0, In r0 ms
    /\ ((matchId r0 = id
         /\ r = mkMatch (matchId r0) (userOneId r0) (userTwoId r0) st (matchedAt r0) (Some t))
        \/ (matchId r0 <> id /\ r = r0)).
Proof.
  unfold set_status; intros H; apply in_map_iff in H; destruct H as [r0 [Hr Hin]].
  exists r0; split; [exact Hin |].
  destruct (Nat.eqb (matchId r0) id) eqn:E.
  - left; split; [apply Nat.eqb_eq; exact E | symmetry; exact Hr].
  - right; split; [apply Nat.eqb_neq; exact E | symmetry; exact Hr].
Qed.

Lemma set_status_image (id : nat) (st : MatchStatus) (t : Z) (ms : list MatchRecord)
    (r0 : MatchRecord) :
  In r0 ms -> matchId r0 = id ->
  In (mkMatch (matchId r0) (userOneId r0) (userTwoId r0) st (matchedAt r0) (Some t))
     (set_status id st t ms).
Proof.
  intros Hin Hid; unfold set_status.
  apply in_map_iff; exists r0; split; [| exact Hin].
  rewrite Hid, Nat.eqb_refl; reflexivity.
Qed.

(** After [set_status id st] with [st] not active, an active row of [p] is
    an untouched row of [p] with another id. *)
Lemma set_status_active (id : nat) (st : MatchStatus) (t : Z) (ms : list MatchRecord)
    (r : MatchRecord) :
  st <> Active -> In r (set_status id st t ms) -> is_active r = true ->
  In r ms /\ matchId r <> id.
Proof.
  intros Hst Hin Ha; destruct (set_status_In _ _ _ _ _ Hin) as [r0 [Hr0 [[_ ->] | [Hne ->]]]].
  - unfold is_active in Ha; simpl in Ha; destruct st; [congruence | discriminate | discriminate].
  - auto.
Qed.

Lemma active_count_two (ms : list MatchRecord) (p : string) (m r : MatchRecord) :
  In m ms -> In r ms -> matchId m <> matchId r ->
  involves m p = true -> is_active m = true -> involves r p = true -> is_active r = true ->
  (2 <= active_count ms p)%nat.
Proof.
  intros Hm Hr Hne Im Am Ir Ar; unfold active_count.
  apply (filter_two _ _ m r Hm Hr); [congruence | rewrite Im, Am | rewrite Ir, Ar]; reflexivity.
Qed.

(** Ending an active match of [u] with id [id] leaves no active match of a
    participant [p] of it, when [p] had at most one. *)
Lemma end_match_find_active (id : nat) (u p : string) (t : Z) (w : World) (m : MatchRecord) :
  In m (matches w) -> matchId m = id -> involves m u = true -> is_active m = true ->
  involves m p = true -> (active_count (matches w) p <= 1)%nat ->
  find_active (matches (end_match id u t w)) p = None.
Proof.
  intros Hm Hid Hu Ha Hp Hc; unfold end_match.
  destruct (find_some_intro (fun m => Nat.eqb (matchId m) id && involves m u && is_active m)
              (matches w) m Hm) as [y Hy]; [rewrite Hid, Nat.eqb_refl, Hu, Ha; reflexivity |].
  rewrite Hy; simpl; apply find_none_intro; intros r Hr.
  destruct (involves r p && is_active r) eqn:E; [exfalso | reflexivity].
  apply andb_true_iff in E; destruct E as [Ir Ar].
  destruct (set_status_active id Ended t (matches w) r ltac:(discriminate) Hr Ar) as [Hr0 Hne].
  pose proof (active_count_two (matches w) p m r Hm Hr0 ltac:(congruence) Hp Ha Ir Ar); lia.
Qed.

(** [POST /cancel] takes out exactly the entries of the caller and leaves
    the match table alone. *)
Theorem cancel_removes_exactly_caller (u : string) (w : World) :
  (forall x, In x (queue (cancel u w)) <-> In x (queue w) /\ userId x <> u)
  /\ matches (cancel u w) = matches w.
Proof.
  split; [| apply remove_loop_matches].
  intros x; unfold cancel; rewrite remove_loop_spec.
  split.
  - intros [Hx H]; split; [exact Hx |].
    intros Heq; rewrite Heq, String.eqb_refl in H; discriminate (H Hx).
  - intros [Hx H]; split; [exact Hx |].
    intros _; apply String.eqb_neq; intros Heq; apply H; symmetry; exact Heq.
Qed.

(** After [POST /cancel], [GET /status] answers [idle] unless the caller
    holds an active match. *)
Theorem cancel_then_status (u : string) (w : World) :
  status_of u (cancel u w)
  = match find_active (matches w) u with Some m => SMatched (matchId m) | None => SIdle end.
Proof.
  assert (Hm : matches (cancel u w) = matches w) by apply remove_loop_matches.
  unfold status_of; rewrite Hm.
  destruct (find_active (matches w) u); [reflexivity |].
  destruct (existsb _ _) eqn:E; [| reflexivity].
  apply existsb_exists in E; destruct E as [x [Hx Hu]]; apply String.eqb_eq in Hu.
  unfold cancel in Hx; apply remove_loop_spec in Hx; destruct Hx as [Hx H].
  rewrite Hu, String.eqb_refl in H; discriminate (H Hx).
Qed.

(** [POST /request] never writes the match table, keeps every queued
    entry, and changes nothing at all unless it answers [waiting]. *)
Theorem request_effect (u : string) (tags : list string) (t : Z) (w : World) :
  matches (snd (request u tags t w)) = matches w
  /\ (fst (request u tags t w) <> RWaiting -> snd (request u tags t w) = w)
  /\ (forall x, In x (queue w) -> In x (queue (snd (request u tags t w)))).
Proof.
  unfold request.
  destruct (find_active (matches w) u); [simpl; repeat split; auto |].
  destruct (cooldown_check _ t); [simpl; repeat split; auto |].
  simpl; split; [reflexivity | split; [congruence |]].
  intros x Hx; apply zadd_keeps; right; exact Hx.
Qed.

(** After a [waiting] answer, [GET /status] answers [waiting]: the queue is
    the old one plus an entry of the caller stamped with the request time. *)
Theorem request_waiting_then_status (u : string) (tags : list string) (t : Z) (w : World) :
  fst (request u tags t w) = RWaiting ->
  status_of u (snd (request u tags t w)) = SWaiting
  /\ exists lmt, In (mkEntry u tags t lmt) (queue (snd (request u tags t w)))
       /\ forall x, In x (queue (snd (request u tags t w))) ->
                    x = mkEntry u tags t lmt \/ In x (queue w).
Proof.
  unfold request.
  destruct (find_active (matches w) u) eqn:Ef; [discriminate |].
  destruct (cooldown_check _ t); [discriminate |].
  intros _; simpl; split.
  - unfold status_of; simpl; rewrite Ef.
    match goal with |- context [zadd ?e ?q] => set (ent := e); set (qq := q) end.
    replace (existsb (fun e => String.eqb (userId e) u) (zadd ent qq)) with true; [reflexivity |].
    symmetry; apply existsb_exists; exists ent; split;
      [apply zadd_keeps; left; reflexivity | apply String.eqb_refl].
  - eexists; split; [apply zadd_keeps; left; reflexivity | intros x Hx; exact (zadd_In _ _ _ Hx)].
Qed.

Lemma request_waiting_then_status_witness :
  fst (request "u"%string [] 1000 init) = RWaiting
  /\ status_of "u"%string (snd (request "u"%string [] 1000 init)) = SWaiting.
Proof.
  assert (H : fst (request "u"%string [] 1000 init) = RWaiting) by reflexivity.
  split; [exact H | exact (proj1 (request_waiting_then_status "u"%string [] 1000 init H))].
Defined.

(** [POST /request] answers 409 with match [id] exactly when [GET /status]
    would answer [matched] with [id]. *)
Theorem request_active_iff_status (u : string) (tags : list string) (t : Z) (w : World)
    (id : nat) :
  fst (request u tags t w) = RAlreadyActive id <-> status_of u w = SMatched id.
Proof.
  unfold request, status_of.
  destruct (find_active (matches w) u) as [m |].
  - simpl; split; intros H; injection H; intros ->; reflexivity.
  - destruct (cooldown_check _ t), (existsb _ _); simpl; split; discriminate.
Qed.

(** [POST /:matchId/end] settles a match once: after a call that changed
    something, any further call on the same id, by either user at any
    time, changes nothing. *)
Theorem end_match_settles (id : nat) (u : string) (t : Z) (w : World) :
  end_match id u t w = w
  \/ forall v t', end_match id v t' (end_match id u t w) = end_match id u t w.
Proof.
  destruct (find (fun m => Nat.eqb (matchId m) id && involves m u && is_active m) (matches w))
    eqn:E; [right | left; unfold end_match; rewrite E; reflexivity].
  intros v t'.
  assert (Heq : end_match id u t w = set_matches (set_status id Ended t (matches w)) (next_id w) w)
    by (unfold end_match; rewrite E; reflexivity).
  rewrite Heq; unfold end_match at 1; simpl.
  rewrite find_none_intro; [reflexivity |].
  intros r Hr; destruct (set_status_In _ _ _ _ _ Hr) as [r0 [_ [[Hid ->] | [Hne ->]]]].
  - unfold is_active; simpl; rewrite !andb_false_r; reflexivity.
  - apply Nat.eqb_neq in Hne; rewrite Hne; reflexivity.
Qed.

(** In every reachable state, ending an active match frees both of its
    users: neither holds an active match afterwards. *)
Theorem end_match_frees_participants (id : nat) (u : string) (t : Z) (w : World)
    (m : MatchRecord) :
  steps init w -> In m (matches w) -> matchId m = id -> involves m u = true ->
  is_active m = true ->
  find_active (matches (end_match id u t w)) (userOneId m) = None
  /\ find_active (matches (end_match id u t w)) (userTwoId m) = None.
Proof.
  intros Hs Hm Hid Hu Ha; destruct (match_inv_steps _ _ Hs match_inv_init) as [Hc _].
  split; apply (end_match_find_active id u _ t w m Hm Hid Hu Ha); [| apply Hc | | apply Hc];
    unfold involves; rewrite String.eqb_refl; [reflexivity | apply orb_true_r].
Qed.

Lemma end_match_frees_participants_witness :
  let w := run_pass 5000 (snd (request "B"%string [] 1000 (snd (request "A"%string [] 0 init)))) in
  let m := mkMatch 0 "A"%string "B"%string Active 5000 None in
  steps init w /\ In m (matches w)
  /\ find_active (matches (end_match 0 "B"%string 9000 w)) "A"%string = None
  /\ find_active (matches (end_match 0 "B"%string 9000 w)) "B"%string = None.
Proof.
  intros w m.
  assert (Hs : steps init w).
  { set (w1 := snd (request "A"%string [] 0 init)).
    set (w2 := snd (request "B"%string [] 1000 w1)).
    apply (steps_cons init w1 w (step_request "A"%string [] 0 init)).
    apply (steps_cons w1 w2 w (step_request "B"%string [] 1000 w1)).
    apply (steps_cons w2 w w (step_pass 5000 w2)).
    apply steps_refl. }
  assert (Hm : In m (matches w)) by (left; reflexivity).
  split; [exact Hs | split; [exact Hm |]].
  exact (end_match_frees_participants 0 "B"%string 9000 w m Hs Hm eq_refl eq_refl eq_refl).
Defined.

(** Ending a match and then asking for a new one: within five minutes of
    the end the request is refused for cooldown with a wait of 1 to 300
    seconds, afterwards it is queued. Assumes [u] held at most one active
    match and every earlier ended match of the table ended by [t]. *)
Theorem end_then_request_cooldown (id : nat) (u : string) (t t' : Z) (tags : list string)
    (w : World) (m : MatchRecord) :
  In m (matches w) -> matchId m = id -> involves m u = true -> is_active m = true ->
  (active_count (matches w) u <= 1)%nat ->
  (forall r, In r (matches w) -> status r = Ended -> exists e, endedAt r = Some e /\ e <= t) ->
  (t <= t' < t + MATCH_COOLDOWN_MS ->
     exists s, fst (request u tags t' (end_match id u t w)) = RCooldown s /\ 1 <= s <= 300)
  /\ (t + MATCH_COOLDOWN_MS <= t' -> fst (request u tags t' (end_match id u t w)) = RWaiting).
Proof.
  intros Hm Hid Hu Ha Hc Hend.
  pose proof (end_match_find_active id u u t w m Hm Hid Hu Ha Hu Hc) as Hfa.
  assert (Hms : matches (end_match id u t w) = set_status id Ended t (matches w)).
  { unfold end_match.
    destruct (find_some_intro (fun m => Nat.eqb (matchId m) id && involves m u && is_active m)
                (matches w) m Hm) as [y Hy]; [rewrite Hid, Nat.eqb_refl, Hu, Ha; reflexivity |].
    rewrite Hy; reflexivity. }
  assert (Hlm : exists r, last_ended (matches (end_match id u t w)) u = Some r
                          /\ endedAt r = Some t).
  { rewrite Hms; apply pick_first_fold_max; [| left; reflexivity |].
    - intros r Hr; apply filter_In in Hr; destruct Hr as [Hr Hf].
      apply andb_true_iff in Hf; destruct Hf as [_ Hst].
      destruct (set_status_In _ _ _ _ _ Hr) as [r0 [Hr0 [[_ ->] | [_ ->]]]].
      + exists t; split; [reflexivity | lia].
      + apply Hend; [exact Hr0 | destruct (status r0); simpl in Hst; congruence].
    - left; exists (mkMatch (matchId m) (userOneId m) (userTwoId m) Ended (matchedAt m) (Some t)).
      split; [| reflexivity].
      apply filter_In; split; [apply set_status_image; assumption |].
      unfold involves in Hu |- *; simpl; rewrite Hu; reflexivity. }
  destruct Hlm as [r [Hr HT]].
  unfold request; rewrite Hfa, Hr; unfold cooldown_check; rewrite HT.
  split; intros Ht.
  - assert (Hlt : t' < t + MATCH_COOLDOWN_MS) by lia; apply Z.ltb_lt in Hlt; rewrite Hlt.
    eexists; split; [reflexivity |]; rewrite ceil_seconds.
    pose proof (ceil_bounds (t + MATCH_COOLDOWN_MS - t')); unfold MATCH_COOLDOWN_MS in *; lia.
  - apply Z.ltb_ge in Ht; rewrite Ht; reflexivity.
Qed.

Lemma end_then_request_cooldown_witness :
  let w := mkWorld [] [mkMatch 0 "u"%string "v"%string Active 0 None] [] [] []
                   (fun _ _ _ => false) 1 in
  fst (request "u"%string [] 10000 (end_match 0 "u"%string 9000 w)) = RCooldown 299
  /\ fst (request "u"%string [] 309000 (end_match 0 "u"%string 9000 w)) = RWaiting.
Proof.
  intros w.
  assert (Hm : In (mkMatch 0 "u"%string "v"%string Active 0 None) (matches w))
    by (left; reflexivity).
  assert (Hend : forall r, In r (matches w) -> status r = Ended ->
                 exists e, endedAt r = Some e /\ e <= 9000)
    by (intros r [<- | []] H; discriminate).
  destruct (end_then_request_cooldown 0 "u"%string 9000 10000 [] w _ Hm eq_refl eq_refl eq_refl
              ltac:(vm_compute; lia) Hend) as [H1 _].
  destruct (end_then_request_cooldown 0 "u"%string 9000 309000 [] w _ Hm eq_refl eq_refl eq_refl
              ltac:(vm_compute; lia) Hend) as [_ H2].
  split.
  - destruct (H1 ltac:(unfold MATCH_COOLDOWN_MS; lia)) as [s [Hs _]].
    rewrite Hs; f_equal; vm_compute in Hs; congruence.
  - apply H2; unfold MATCH_COOLDOWN_MS; lia.
Defined.

(** ** [POST /reports/block] and [POST /reports/unblock] *)

(** Past the two 400 guards, the block route runs its body. *)
Lemma block_user_go (a b : string) (t : Z) (w : World) :
  b <> EmptyString -> b <> a ->
  block_user a b t w
  = if existsb (fun '(x, y) => String.eqb x a && String.eqb y b) (blocks w) then w
    else
      let w1 := set_blocks ((a, b) :: blocks w) w in
      match find (fun m => ((String.eqb (userOneId m) a && String.eqb (userTwoId m) b)
                            || (String.eqb (userOneId m) b && String.eqb (userTwoId m) a))
                           && is_active m) (matches w1) with
      | None => w1
      | Some m => set_matches (set_status (matchId m) Blocked t (matches w1)) (next_id w1) w1
      end.
Proof.
  intros H1 H2; apply String.eqb_neq in H1, H2; unfold block_user; rewrite H1, H2; reflexivity.
Qed.

Lemma block_user_blocks (a b : string) (t : Z) (w : World) :
  b <> EmptyString -> b <> a ->
  existsb (fun '(x, y) => String.eqb x a && String.eqb y b) (blocks w) = false ->
  blocks (block_user a b t w) = (a, b) :: blocks w.
Proof.
  intros H1 H2 E; rewrite (block_user_go a b t w H1 H2), E; simpl.
  destruct (find (A:=MatchRecord) _ _); reflexivity.
Qed.

Lemma existsb_pair_false (a b : string) (bs : list (string * string)) :
  ~ In (a, b) bs ->
  existsb (fun '(x, y) => String.eqb x a && String.eqb y b) bs = false.
Proof.
  intros Hn; destruct (existsb _ bs) eqn:E; [exfalso | reflexivity].
  apply existsb_exists in E; destruct E as [[x y] [Hin H]].
  apply andb_true_iff in H; destruct H as [Hx Hy].
  apply String.eqb_eq in Hx, Hy; subst; exact (Hn Hin).
Qed.

Lemma unblock_filter_id (a b : string) (bs : list (string * string)) :
  ~ In (a, b) bs ->
  filter (fun '(x, y) => negb (String.eqb x a && String.eqb y b)) bs = bs.
Proof.
  induction bs as [| [x y] bs IH]; intros Hn; simpl; [reflexivity |].
  destruct (String.eqb x a && String.eqb y b) eqn:E; simpl.
  - exfalso; apply andb_true_iff in E; destruct E as [Hx Hy].
    apply String.eqb_eq in Hx, Hy; subst; apply Hn; left; reflexivity.
  - f_equal; apply IH; intros H; apply Hn; right; exact H.
Qed.

(** After [A] blocks another user [B] (a non-empty id), the pass's safety
    filter vetoes the pair in both orders; the queue is not touched. *)
Theorem block_vetoes_pair (a b : string) (t : Z) (w : World) :
  b <> EmptyString -> b <> a ->
  permitted (block_user a b t w) a b = false
  /\ permitted (block_user a b t w) b a = false
  /\ queue (block_user a b t w) = queue w.
Proof.
  intros H1 H2.
  assert (Hin : In (a, b) (blocks (block_user a b t w))).
  { destruct (existsb (fun '(x, y) => String.eqb x a && String.eqb y b) (blocks w)) eqn:E.
    - rewrite (block_user_go a b t w H1 H2), E.
      apply existsb_exists in E; destruct E as [[x y] [Hxy H]].
      apply andb_true_iff in H; destruct H as [Hx Hy].
      apply String.eqb_eq in Hx, Hy; subst; exact Hxy.
    - rewrite (block_user_blocks a b t w H1 H2 E); left; reflexivity. }
  assert (Hab : blocked_between (blocks (block_user a b t w)) a b = true)
    by (apply blocked_between_spec; auto).
  assert (Hba : blocked_between (blocks (block_user a b t w)) b a = true)
    by (apply blocked_between_spec; auto).
  unfold permitted; rewrite Hab, Hba; split; [reflexivity | split; [reflexivity |]].
  rewrite (block_user_go a b t w H1 H2); destruct (existsb _ _); [reflexivity |].
  simpl; destruct (find (A:=MatchRecord) _ _); reflexivity.
Qed.

Lemma block_vetoes_pair_witness :
  let w := mkWorld [mkEntry "A"%string [] 0 0; mkEntry "B"%string [] 1000 0] [] [] [] []
                   (fun _ _ _ => false) 0 in
  permitted w "A"%string "B"%string = true
  /\ permitted (block_user "A"%string "B"%string 2000 w) "A"%string "B"%string = false
  /\ permitted (block_user "A"%string "B"%string 2000 w) "B"%string "A"%string = false
  /\ queue (block_user "A"%string "B"%string 2000 w) = queue w.
Proof.
  intros w.
  assert (H1 : "B"%string <> EmptyString) by discriminate.
  assert (H2 : "B"%string <> "A"%string) by discriminate.
  split; [reflexivity |].
  exact (block_vetoes_pair "A"%string "B"%string 2000 w H1 H2).
Defined.

(** A first block of another user [B] (a non-empty id) by [A] ends their
    active match: afterwards no active match between the two is left,
    provided [A] held at most one. *)
Theorem block_ends_pair_match (a b : string) (t : Z) (w : World) :
  b <> EmptyString -> b <> a ->
  ~ In (a, b) (blocks w) -> (active_count (matches w) a <= 1)%nat ->
  forall m, In m (matches (block_user a b t w)) -> is_active m = true ->
  ~ ((userOneId m = a /\ userTwoId m = b) \/ (userOneId m = b /\ userTwoId m = a)).
Proof.
  intros H1 H2 Hn Hc m Hm Ha Hpair.
  assert (Hg : forall r, ((String.eqb (userOneId r) a && String.eqb (userTwoId r) b)
                          || (String.eqb (userOneId r) b && String.eqb (userTwoId r) a))
                         = true <->
                         (userOneId r = a /\ userTwoId r = b)
                         \/ (userOneId r = b /\ userTwoId r = a))
    by (intros r; rewrite orb_true_iff, !andb_true_iff, !String.eqb_eq; tauto).
  assert (Hia : forall r, (userOneId r = a /\ userTwoId r = b)
                          \/ (userOneId r = b /\ userTwoId r = a) -> involves r a = true)
    by (intros r H; unfold involves; destruct H as [[H _] | [_ H]]; rewrite H, String.eqb_refl;
        [reflexivity | apply orb_true_r]).
  rewrite (block_user_go a b t w H1 H2), (existsb_pair_false a b _ Hn) in Hm.
  simpl in Hm.
  destruct (find _ (matches w)) as [m0 |] eqn:E.
  - apply find_some in E; destruct E as [Hm0 Hf]; apply andb_true_iff in Hf.
    destruct Hf as [Hp0 Ha0]; apply Hg in Hp0.
    simpl in Hm.
    destruct (set_status_active (matchId m0) Blocked t (matches w) m ltac:(discriminate) Hm Ha)
      as [Hmw Hne].
    pose proof (active_count_two (matches w) a m0 m Hm0 Hmw ltac:(congruence)
                  (Hia m0 Hp0) Ha0 (Hia m Hpair) Ha); lia.
  - apply (find_none _ _ E) in Hm; rewrite (proj2 (Hg m) Hpair), Ha in Hm; discriminate.
Qed.

Lemma block_ends_pair_match_witness :
  let w := mkWorld [] [mkMatch 0 "A"%string "B"%string Active 0 None] [] [] []
                   (fun _ _ _ => false) 1 in
  "B"%string <> EmptyString /\ "B"%string <> "A"%string
  /\ ~ In ("A"%string, "B"%string) (blocks w) /\ (active_count (matches w) "A"%string <= 1)%nat
  /\ matches (block_user "A"%string "B"%string 5000 w)
     = [mkMatch 0 "A"%string "B"%string Blocked 0 (Some 5000)]
  /\ forall m, In m (matches (block_user "A"%string "B"%string 5000 w)) -> is_active m = true ->
     ~ ((userOneId m = "A"%string /\ userTwoId m = "B"%string)
        \/ (userOneId m = "B"%string /\ userTwoId m = "A"%string)).
Proof.
  intros w.
  assert (H0 : "B"%string <> EmptyString) by discriminate.
  assert (H0' : "B"%string <> "A"%string) by discriminate.
  assert (H1 : ~ In ("A"%string, "B"%string) (blocks w)) by (intros []).
  assert (H2 : (active_count (matches w) "A"%string <= 1)%nat) by (vm_compute; lia).
  split; [exact H0 | split; [exact H0' | split; [exact H1 | split; [exact H2 |]]]].
  split; [reflexivity |].
  exact (block_ends_pair_match "A"%string "B"%string 5000 w H0 H0' H1 H2).
Defined.

(** [POST /reports/unblock] undoes a first block's row, and only that: the
    match the block ended stays ended. *)
Theorem unblock_undoes_block (a b : string) (t : Z) (w : World) :
  ~ In (a, b) (blocks w) ->
  blocks (unblock_user a b (block_user a b t w)) = blocks w
  /\ matches (unblock_user a b (block_user a b t w)) = matches (block_user a b t w).
Proof.
  intros Hn; split; [| reflexivity].
  destruct (String.eqb b EmptyString || String.eqb b a) eqn:G.
  - unfold block_user; rewrite G; apply unblock_filter_id; exact Hn.
  - apply orb_false_iff in G; destruct G as [G1 G2]; apply String.eqb_neq in G1, G2.
    unfold unblock_user; simpl.
    rewrite (block_user_blocks a b t w G1 G2 (existsb_pair_false a b _ Hn)).
    simpl; rewrite !String.eqb_refl; simpl; apply unblock_filter_id; exact Hn.
Qed.

Lemma unblock_undoes_block_witness :
  let w := mkWorld [] [mkMatch 0 "A"%string "B"%string Active 0 None] [("B"%string, "A"%string)]
                   [] [] (fun _ _ _ => false) 1 in
  ~ In ("A"%string, "B"%string) (blocks w)
  /\ blocks (unblock_user "A"%string "B"%string (block_user "A"%string "B"%string 5000 w))
     = blocks w
  /\ matches (unblock_user "A"%string "B"%string (block_user "A"%string "B"%string 5000 w))
     = [mkMatch 0 "A"%string "B"%string Blocked 0 (Some 5000)].
Proof.
  intros w.
  assert (H : ~ In ("A"%string, "B"%string) (blocks w)) by (intros [H | []]; discriminate).
  destruct (unblock_undoes_block "A"%string "B"%string 5000 w H) as [H1 H2].
  split; [exact H | split; [exact H1 | rewrite H2; reflexivity]].
Defined.

(** ** The DB-queue routes *)

Lemma db_candidate_cases (w : World) (u : string) (tags : list string) (j now : Z)
    (best r : option (QEntry * Z)) (c : QEntry) :
  db_candidate w u tags j now best c = Ok r ->
  r = best
  \/ (exists s, r = Some (c, s)
      /\ existsb (String.eqb (q_userId c)) (suspended w) = false
      /\ blocked_between (blocks w) u (q_userId c) = false
      /\ reported_between (reports w) u (q_userId c) = false).
Proof.
  unfold db_candidate, lookup, bind.
  destruct (existsb _ (suspended w)) eqn:Es; [intros H; injection H; auto |].
  destruct (lookup_fail w LBlocked _ _); [discriminate |].
  destruct (blocked_between _ _ _) eqn:Eb; [intros H; injection H; auto |].
  destruct (lookup_fail w LReported _ _); [discriminate |].
  destruct (reported_between _ _ _) eqn:Er; [intros H; injection H; auto |].
  destruct (lookup_fail w LRecentMatch _ _); [discriminate |].
  destruct best as [[c0 bs] |]; [destruct (bs <? _) |]; intros H; injection H; intros <-;
    [right; eexists; eauto | left; reflexivity | right; eexists; eauto].
Qed.

Lemma db_scan_result (w : World) (u : string) (tags : list string) (j now : Z)
    (cs : list QEntry) :
  forall best0 c s,
  db_scan w u tags j now best0 cs = Ok (Some (c, s)) ->
  best0 = Some (c, s)
  \/ (In c cs
      /\ existsb (String.eqb (q_userId c)) (suspended w) = false
      /\ blocked_between (blocks w) u (q_userId c) = false
      /\ reported_between (reports w) u (q_userId c) = false).
Proof.
  induction cs as [| c0 cs IH]; intros best0 c s H; simpl in H.
  - injection H; auto.
  - destruct (db_candidate w u tags j now best0 c0) as [best1 |] eqn:E; [| discriminate].
    cbn [bind] in H; destruct (IH _ _ _ H) as [-> | [Hin Hs]]; [| right; simpl; auto].
    destruct (db_candidate_cases _ _ _ _ _ _ _ _ E) as [<- | [s' [Heq Hs]]]; [left; reflexivity |].
    injection Heq; intros <- <-; right; simpl; auto.
Qed.

Lemma db_scan_fail (w : World) (u : string) (tags : list string) (j now : Z)
    (cs : list QEntry) :
  forall best0 e, db_scan w u tags j now best0 cs = Fail e ->
  exists c l, In c cs /\ lookup_fail w l u (q_userId c) = true.
Proof.
  induction cs as [| c0 cs IH]; intros best0 e H; simpl in H; [discriminate |].
  destruct (db_candidate w u tags j now best0 c0) as [best1 | e'] eqn:E; cbn [bind] in H.
  - destruct (IH _ _ H) as [c [l [Hin Hl]]]; exists c, l; simpl; auto.
  - exists c0; revert E; unfold db_candidate, lookup, bind.
    destruct (existsb _ (suspended w)); [discriminate |].
    destruct (lookup_fail w LBlocked _ _) eqn:E1; [intros _; exists LBlocked; simpl; auto |].
    destruct (blocked_between _ _ _); [discriminate |].
    destruct (lookup_fail w LReported _ _) eqn:E2; [intros _; exists LReported; simpl; auto |].
    destruct (reported_between _ _ _); [discriminate |].
    destruct (lookup_fail w LRecentMatch _ _) eqn:E3; [intros _; exists LRecentMatch; simpl; auto |].
    destruct best0 as [[? ?] |]; [destruct (_ <? _) |]; discriminate.
Qed.

Lemma db_find_row_some (u : string) (mq : list QEntry) (e : QEntry) :
  db_find_row u mq = Some e -> In e mq /\ q_userId e = u.
Proof.
  unfold db_find_row; intros H; apply find_some in H; destruct H as [H1 H2].
  apply String.eqb_eq in H2; auto.
Qed.

Lemma db_find_row_none (u : string) (mq : list QEntry) :
  db_find_row u mq = None <-> forall e, In e mq -> q_userId e <> u.
Proof.
  unfold db_find_row; split.
  - intros H e He Heq; apply (find_none _ _ H) in He; rewrite Heq, String.eqb_refl in He;
      discriminate.
  - intros H; apply find_none_intro; intros e He; apply String.eqb_neq; exact (H e He).
Qed.

(** Deleting rows of the queue table keeps its user ids distinct. *)
Lemma rows_unique_filter (keep : QEntry -> bool) (mq : list QEntry) :
  NoDup (map q_userId mq) -> NoDup (map q_userId (filter keep mq)).
Proof.
  induction mq as [| x mq IH]; simpl; [auto |].
  intros Hnd; inversion Hnd as [| ? ? Hnin Hnd']; subst.
  destruct (keep x); simpl; [| auto].
  constructor; [| auto].
  intros H; apply Hnin; apply in_map_iff in H; destruct H as [y [Hy Hin]].
  apply filter_In in Hin; rewrite <- Hy; apply in_map; tauto.
Qed.

Lemma NoDup_map_snoc {A B : Type} (f : A -> B) (l : list A) (x : A) :
  NoDup (map f l) -> ~ In (f x) (map f l) -> NoDup (map f (l ++ [x])).
Proof.
  induction l as [| y l IH]; simpl; intros Hnd Hn; [constructor; [intros [] | constructor] |].
  inversion Hnd as [| ? ? Hnin Hnd']; subst.
  constructor; [| apply IH; tauto].
  rewrite map_app; intros H; apply in_app_or in H; destruct H as [H | [H | []]]; [tauto |].
  apply Hn; left; symmetry; exact H.
Qed.

(** The queue table after step 4 of [POST /request]: the old rows, plus a
    row of [u] when it had none; it then holds a row of [u]. *)
Lemma db_mq1_spec (u : string) (tags : list string) (now : Z) (mq : list QEntry) :
  let mq1 := match db_find_row u mq with
             | Some _ => mq
             | None => mq ++ [mkQEntry u tags now]
             end in
  (forall x, In x mq1 -> In x mq \/ q_userId x = u)
  /\ (forall x, In x mq -> In x mq1)
  /\ (exists e, In e mq1 /\ q_userId e = u)
  /\ (NoDup (map q_userId mq) -> NoDup (map q_userId mq1)).
Proof.
  intros mq1; subst mq1.
  destruct (db_find_row u mq) as [ex |] eqn:Ex.
  - destruct (db_find_row_some _ _ _ Ex) as [Hin Hu]; repeat split; auto; exists ex; auto.
  - pose proof (proj1 (db_find_row_none u mq) Ex) as Hn; repeat split.
    + intros x Hx; apply in_app_or in Hx; destruct Hx as [Hx | [<- | []]]; auto.
    + intros x Hx; apply in_or_app; auto.
    + exists (mkQEntry u tags now); split; [apply in_or_app; right; left |]; reflexivity.
    + intros Hnd; apply NoDup_map_snoc; [exact Hnd |].
      intros H; apply in_map_iff in H; destruct H as [y [Hy Hin]]; exact (Hn y Hin Hy).
Qed.

(** ** C1 for the DB-queue deployment *)

(** The DB-queue deployment keeps the same invariant over (queue table,
    world): at most one active match per user, none for a user with a
    queue row. *)
Definition db_inv (s : list QEntry * World) : Prop :=
  (forall u, (active_count (matches (snd s)) u <= 1)%nat)
  /\ (forall e, In e (fst s) -> active_count (matches (snd s)) (q_userId e) = 0%nat).

Lemma db_inv_init : db_inv ([], init).
Proof. split; [intros u; cbn; lia | intros e []]. Qed.

Lemma db_inv_request (u : string) (tags : list string) (now : Z) (mq : list QEntry)
    (w : World) (r : DbResponse) (mq' : list QEntry) (w' : World) :
  db_request u tags now mq w = (r, mq', w') -> db_inv (mq, w) -> db_inv (mq', w').
Proof.
  intros H [Hc Hq]; cbn [fst snd] in Hc, Hq; unfold db_inv; cbn [fst snd].
  destruct (db_mq1_spec u tags now mq) as [Hsub _].
  revert H; unfold db_request; cbv zeta.
  destruct (find_active (matches w) u) eqn:Ef; [intros H; injection H; intros <- <- _; auto |].
  destruct (cooldown_check _ now); [intros H; injection H; intros <- <- _; auto |].
  revert Hsub.
  generalize (match db_find_row u mq with Some e => q_joinedAt e | None => now end) as j.
  generalize (match db_find_row u mq with Some _ => mq | None => mq ++ [mkQEntry u tags now] end)
    as mq1.
  intros mq1 j Hsub.
  assert (Hq1 : forall e, In e mq1 -> active_count (matches w) (q_userId e) = 0%nat).
  { intros e He; destruct (Hsub e He) as [H1 | H1]; [auto |].
    rewrite H1; apply active_count_zero; exact Ef. }
  destruct (filter (fun e => negb (String.eqb (q_userId e) u)) mq1) as [| c0 cs] eqn:Ef2;
    [intros H; injection H; intros <- <- _; auto |].
  destruct (db_scan w u tags j now None (c0 :: cs)) as [[[c s] |] | e] eqn:Es;
    [| intros H; injection H; intros <- <- _; auto | intros H; injection H; intros <- <- _; auto].
  intros H; injection H; intros <- <- <-; cbn [matches set_matches].
  destruct (db_scan_result _ _ _ _ _ _ _ _ _ Es) as [Hb | [Hin _]]; [discriminate |].
  rewrite <- Ef2 in Hin; apply filter_In in Hin; destruct Hin as [Hin _].
  assert (Hnew : forall v, involves (mkMatch (next_id w) u (q_userId c) Active now None) v
                           = String.eqb u v || String.eqb (q_userId c) v)
    by reflexivity.
  assert (Hu : active_count (matches w) u = 0%nat) by (apply active_count_zero; exact Ef).
  split.
  - intros v; rewrite active_count_cons; simpl is_active; rewrite Hnew, andb_true_r.
    destruct (String.eqb u v) eqn:Ea; simpl.
    + apply String.eqb_eq in Ea; subst v; rewrite Hu; lia.
    + destruct (String.eqb (q_userId c) v) eqn:Eb; simpl; [| apply Hc].
      apply String.eqb_eq in Eb; subst v; rewrite (Hq1 c Hin); lia.
  - intros x Hx; rewrite active_count_cons; simpl is_active; rewrite Hnew, andb_true_r.
    apply filter_In in Hx; destruct Hx as [Hx Hsel].
    apply negb_true_iff in Hsel.
    rewrite (String.eqb_sym u), (String.eqb_sym (q_userId c)), Hsel; simpl.
    apply Hq1; exact Hx.
Qed.

Lemma db_inv_fewer (mq : list QEntry) (w w' : World) :
  (forall v, (active_count (matches w') v <= active_count (matches w) v)%nat) ->
  db_inv (mq, w) -> db_inv (mq, w').
Proof.
  intros Hle [Hc Hq]; cbn [fst snd] in Hc, Hq; split; cbn [fst snd].
  - intros v; eapply Nat.le_trans; [apply Hle | apply Hc].
  - intros e He; specialize (Hle (q_userId e)); rewrite (Hq e He) in Hle; lia.
Qed.

Lemma end_match_counts (id : nat) (u : string) (t : Z) (w : World) (v : string) :
  (active_count (matches (end_match id u t w)) v <= active_count (matches w) v)%nat.
Proof.
  unfold end_match; destruct (find _ _); [| lia].
  apply active_count_set_status; discriminate.
Qed.

Lemma block_user_counts (a b : string) (t : Z) (w : World) (v : string) :
  (active_count (matches (block_user a b t w)) v <= active_count (matches w) v)%nat.
Proof.
  unfold block_user; destruct (_ || _); [lia |].
  destruct (existsb _ _); [lia |].
  destruct (find _ _); [| cbn [matches set_blocks]; lia].
  apply active_count_set_status; discriminate.
Qed.

Lemma db_inv_step (s s' : list QEntry * World) : db_step s s' -> db_inv s -> db_inv s'.
Proof.
  intros Hs Hi; destruct Hs as [u tags now mq w r mq' w' H | u mq w | id u t mq w
                               | a b t mq w | mq w w' Hm].
  - exact (db_inv_request _ _ _ _ _ _ _ _ H Hi).
  - destruct Hi as [Hc Hq]; split; cbn [fst snd] in *; [exact Hc |].
    intros e He; unfold db_cancel in He; apply filter_In in He; apply Hq; tauto.
  - apply (db_inv_fewer mq w); [apply end_match_counts | exact Hi].
  - apply (db_inv_fewer mq w); [apply block_user_counts | exact Hi].
  - apply (db_inv_fewer mq w); [intros v; rewrite Hm; lia | exact Hi].
Qed.

Lemma db_inv_steps (s s' : list QEntry * World) : db_steps s s' -> db_inv s -> db_inv s'.
Proof.
  induction 1 as [s | s1 s2 s3 Hs Hss IH]; [auto |].
  intros Hi; apply IH; exact (db_inv_step _ _ Hs Hi).
Qed.

(** C1 (as amended). In both deployments, along any sequence of operations
    each run to completion from the empty state, every user takes part in
    at most one active match: in the Redis one (requests, passes,
    cancellations, match endings, blocks and changes of the safety facts),
    and in the DB-queue one (requests of [POST /request], cancellations,
    match endings, blocks and changes of the safety facts). Neither
    creation path checks for an existing active match itself. *)
Theorem active_match_unique (w : World) (mq : list QEntry) (w2 : World) :
  (steps init w -> forall u, (active_count (matches w) u <= 1)%nat)
  /\ (db_steps ([], init) (mq, w2) -> forall u, (active_count (matches w2) u <= 1)%nat).
Proof.
  split.
  - intros Hs; exact (proj1 (match_inv_steps _ _ Hs match_inv_init)).
  - intros Hs; exact (proj1 (db_inv_steps _ _ Hs db_inv_init)).
Qed.

(** A and B request and a pass pairs them (Redis); C requests and waits,
    then B requests and is paired with C (DB queue). *)
Lemma active_match_unique_witness :
  let w1 := snd (request "A"%string [] 0 init) in
  let w2 := snd (request "B"%string [] 1000 w1) in
  let w3 := run_pass 5000 w2 in
  let d1 := db_request "C"%string [] 0 [] init in
  let d2 := db_request "B"%string [] 1000 (snd (fst d1)) (snd d1) in
  steps init w3 /\ active_count (matches w3) "A"%string = 1%nat
  /\ (active_count (matches w3) "A"%string <= 1)%nat
  /\ db_steps ([], init) (snd (fst d2), snd d2)
  /\ fst (fst d2) = DMatched 0 /\ active_count (matches (snd d2)) "C"%string = 1%nat
  /\ (active_count (matches (snd d2)) "C"%string <= 1)%nat.
Proof.
  intros w1 w2 w3 d1 d2.
  assert (Hs : steps init w3).
  { apply (steps_cons init w1 w3 (step_request "A"%string [] 0 init)).
    apply (steps_cons w1 w2 w3 (step_request "B"%string [] 1000 w1)).
    apply (steps_cons w2 w3 w3 (step_pass 5000 w2)).
    apply steps_refl. }
  assert (Hd : db_steps ([], init) (snd (fst d2), snd d2)).
  { apply (db_steps_cons _ (snd (fst d1), snd d1)).
    - apply (db_step_request "C"%string [] 0 [] init (fst (fst d1))); reflexivity.
    - apply (db_steps_cons _ (snd (fst d2), snd d2)); [| apply db_steps_refl].
      apply (db_step_request "B"%string [] 1000 _ _ (fst (fst d2))); reflexivity. }
  split; [exact Hs | split; [reflexivity | split]].
  - exact (proj1 (active_match_unique w3 [] init) Hs "A"%string).
  - split; [exact Hd | split; [reflexivity | split; [reflexivity |]]].
    exact (proj2 (active_match_unique init (snd (fst d2)) (snd d2)) Hd "C"%string).
Defined.

(** C1, counterexample. [createMatch] does not refuse a user who already
    holds an active match: called for A and C while A-B is active, it
    leaves A in two active matches. Nor does the DB-queue [POST /request]
    under concurrent requests: C waits; B requests, its upsert makes the
    table [C; B], and it is paired with C. D's request read the table
    before B's [deleteMany] ran, so it still sees C and B, and pairs D with
    C too: C is in two active matches. *)
Lemma no_already_matched_check_counterexample :
  let w := mkWorld [] [mkMatch 0 "A"%string "B"%string Active 0 None] [] [] []
                   (fun _ _ _ => false) 1 in
  let d1 := db_request "C"%string [] 0 [] init in
  let d2 := db_request "B"%string [] 1000 (snd (fst d1)) (snd d1) in
  let stale := snd (fst d1) ++ [mkQEntry "B"%string [] 1000] in
  let d3 := db_request "D"%string [] 1500 stale (snd d2) in
  active_count (matches w) "A"%string = 1%nat
  /\ active_count (matches (createMatch (mkEntry "A"%string [] 0 0)
                                        (mkEntry "C"%string [] 0 0) 1000 w))
                  "A"%string = 2%nat
  /\ fst (fst d2) = DMatched 0 /\ snd (fst d2) = []
  /\ active_count (matches (snd d2)) "C"%string = 1%nat
  /\ fst (fst d3) = DMatched 1
  /\ active_count (matches (snd d3)) "C"%string = 2%nat.
Proof. repeat split; reflexivity. Qed.

(** A match created by the DB-queue [POST /request] pairs the caller, as
    first user, with another user who had a queue row, is not suspended and
    has no block or report with the caller in either direction; the rows
    of both are gone afterwards. The caller is never matched with
    themselves. *)
Theorem db_request_match_spec (u : string) (tags : list string) (now : Z) (mq : list QEntry)
    (w : World) (r : DbResponse) (mq' : list QEntry) (w' : World) (m : MatchRecord) :
  db_request u tags now mq w = (r, mq', w') -> In m (matches w') -> ~ In m (matches w) ->
  r = DMatched (matchId m) /\ userOneId m = u /\ userTwoId m <> u /\ status m = Active
  /\ (exists c, In c mq /\ q_userId c = userTwoId m)
  /\ ~ In (userTwoId m) (suspended w)
  /\ blocked_between (blocks w) u (userTwoId m) = false
  /\ reported_between (reports w) u (userTwoId m) = false
  /\ (forall e, In e mq' -> q_userId e <> u /\ q_userId e <> userTwoId m).
Proof.
  destruct (db_mq1_spec u tags now mq) as [Hsub _].
  unfold db_request; cbv zeta.
  destruct (find_active (matches w) u); [intros H; injection H; intros <- _ _; tauto |].
  destruct (cooldown_check _ now); [intros H; injection H; intros <- _ _; tauto |].
  revert Hsub.
  generalize (match db_find_row u mq with Some e => q_joinedAt e | None => now end) as j.
  generalize (match db_find_row u mq with Some _ => mq | None => mq ++ [mkQEntry u tags now] end)
    as mq1.
  intros mq1 j Hsub.
  destruct (filter (fun e => negb (String.eqb (q_userId e) u)) mq1) as [| c0 cs] eqn:Ef;
    [intros H; injection H; intros <- _ _; tauto |].
  destruct (db_scan w u tags j now None (c0 :: cs)) as [[[c s] |] | e] eqn:Es;
    [| intros H; injection H; intros <- _ _; tauto | intros H; injection H; intros <- _ _; tauto].
  intros H; injection H; intros <- <- <-; simpl; intros [<- | Hin] Hn; [| contradiction].
  simpl.
  destruct (db_scan_result _ _ _ _ _ _ _ _ _ Es) as [Hb | [Hc [Hsus [Hbl Hrp]]]];
    [discriminate |].
  rewrite <- Ef in Hc; apply filter_In in Hc; destruct Hc as [Hc Hcu].
  apply negb_true_iff, String.eqb_neq in Hcu.
  split; [reflexivity | split; [reflexivity | split; [exact Hcu | split; [reflexivity |]]]].
  split.
  - exists c; split; [| reflexivity].
    destruct (Hsub c Hc) as [H1 | H1]; [exact H1 | contradiction].
  - split; [| split; [exact Hbl | split; [exact Hrp |]]].
    + intros Hs.
      assert (Hx : existsb (String.eqb (q_userId c)) (suspended w) = true)
        by (apply existsb_exists; exists (q_userId c); split; [exact Hs | apply String.eqb_refl]).
      congruence.
    + intros e He; apply filter_In in He; destruct He as [_ He].
      apply negb_true_iff, orb_false_iff in He; destruct He as [H1 H2].
      apply String.eqb_neq in H1, H2; auto.
Qed.

Lemma db_request_match_spec_witness :
  let mq := [mkQEntry "B"%string ["t"%string] 0] in
  let m := mkMatch 0 "A"%string "B"%string Active 5000 None in
  db_request "A"%string ["t"%string] 5000 mq init = (DMatched 0, [], set_matches [m] 1 init)
  /\ userTwoId m <> "A"%string
  /\ blocked_between (blocks init) "A"%string "B"%string = false.
Proof.
  intros mq m.
  assert (H : db_request "A"%string ["t"%string] 5000 mq init
              = (DMatched 0, [], set_matches [m] 1 init)) by reflexivity.
  assert (Hin : In m (matches (set_matches [m] 1 init))) by (left; reflexivity).
  assert (Hn : ~ In m (matches init)) by (intros []).
  destruct (db_request_match_spec _ _ _ _ _ _ _ _ m H Hin Hn)
    as [_ [_ [Hne [_ [_ [_ [Hbl _]]]]]]].
  split; [exact H | split; [exact Hne | exact Hbl]].
Defined.

(** The DB queue holds at most one row per user: [POST /request] and
    [POST /cancel] keep it so. *)
Theorem db_rows_unique (u v : string) (tags : list string) (now : Z) (mq : list QEntry)
    (w : World) (r : DbResponse) (mq' : list QEntry) (w' : World) :
  NoDup (map q_userId mq) ->
  (db_request u tags now mq w = (r, mq', w') -> NoDup (map q_userId mq'))
  /\ NoDup (map q_userId (db_cancel v mq)).
Proof.
  intros Hnd; split; [| apply rows_unique_filter; exact Hnd].
  destruct (db_mq1_spec u tags now mq) as [_ [_ [_ Hnd1]]]; specialize (Hnd1 Hnd).
  unfold db_request; cbv zeta.
  destruct (find_active (matches w) u); [intros H; injection H; intros _ <- _; exact Hnd |].
  destruct (cooldown_check _ now); [intros H; injection H; intros _ <- _; exact Hnd |].
  revert Hnd1.
  generalize (match db_find_row u mq with Some e => q_joinedAt e | None => now end) as j.
  generalize (match db_find_row u mq with Some _ => mq | None => mq ++ [mkQEntry u tags now] end)
    as mq1.
  intros mq1 j Hnd1.
  destruct (filter _ mq1) as [| c0 cs]; [intros H; injection H; intros _ <- _; exact Hnd1 |].
  destruct (db_scan _ _ _ _ _ _ _) as [[[c s] |] | e];
    intros H; injection H; intros _ <- _; [apply rows_unique_filter | |]; exact Hnd1.
Qed.

Lemma db_rows_unique_witness :
  let mq := [mkQEntry "A"%string [] 0] in
  NoDup (map q_userId mq)
  /\ db_request "A"%string [] 5000 mq init = (DWaiting, mq, init)
  /\ NoDup (map q_userId mq).
Proof.
  intros mq.
  assert (Hnd : NoDup (map q_userId mq)) by (constructor; [intros [] | constructor]).
  assert (H : db_request "A"%string [] 5000 mq init = (DWaiting, mq, init)) by reflexivity.
  split; [exact Hnd | split; [exact H |]].
  exact (proj1 (db_rows_unique "A"%string "A"%string [] 5000 mq init _ _ _ Hnd) H).
Defined.

(** When a lookup of the candidate loop throws, [POST /request] fails, but
    the caller's queue row written in step 4 stays, and no match is made. *)
Theorem db_request_error_keeps_row (u : string) (tags : list string) (now : Z)
    (mq : list QEntry) (w : World) (mq' : list QEntry) (w' : World) :
  db_request u tags now mq w = (DError, mq', w') ->
  w' = w /\ (exists e, In e mq' /\ q_userId e = u) /\ (forall e, In e mq -> In e mq')
  /\ (exists c l, In c mq /\ q_userId c <> u /\ lookup_fail w l u (q_userId c) = true).
Proof.
  destruct (db_mq1_spec u tags now mq) as [Hsub [Hsup [Hrow _]]].
  unfold db_request; cbv zeta.
  destruct (find_active (matches w) u); [discriminate |].
  destruct (cooldown_check _ now); [discriminate |].
  revert Hsub Hsup Hrow.
  generalize (match db_find_row u mq with Some e => q_joinedAt e | None => now end) as j.
  generalize (match db_find_row u mq with Some _ => mq | None => mq ++ [mkQEntry u tags now] end)
    as mq1.
  intros mq1 j Hsub Hsup Hrow.
  destruct (filter (fun e => negb (String.eqb (q_userId e) u)) mq1) as [| c0 cs] eqn:Ef;
    [discriminate |].
  destruct (db_scan w u tags j now None (c0 :: cs)) as [[[c s] |] | e] eqn:Es;
    [discriminate | discriminate |].
  intros H; injection H; intros <- <-; split; [reflexivity | split; [exact Hrow | split; [exact Hsup |]]].
  destruct (db_scan_fail _ _ _ _ _ _ _ _ Es) as [c [l [Hc Hl]]].
  rewrite <- Ef in Hc; apply filter_In in Hc; destruct Hc as [Hc Hcu].
  apply negb_true_iff, String.eqb_neq in Hcu.
  exists c, l; split; [destruct (Hsub c Hc); [assumption | contradiction] | auto].
Qed.

Lemma db_request_error_keeps_row_witness :
  let w := mkWorld [] [] [] [] [] (fun l _ _ => match l with LBlocked => true | _ => false end) 0 in
  let mq := [mkQEntry "B"%string [] 0] in
  db_request "A"%string [] 5000 mq w = (DError, mq ++ [mkQEntry "A"%string [] 5000], w)
  /\ exists e, In e (mq ++ [mkQEntry "A"%string [] 5000]) /\ q_userId e = "A"%string.
Proof.
  intros w mq.
  assert (H : db_request "A"%string [] 5000 mq w
              = (DError, mq ++ [mkQEntry "A"%string [] 5000], w)) by reflexivity.
  split; [exact H | exact (proj1 (proj2 (db_request_error_keeps_row _ _ _ _ _ _ _ H)))].
Defined.

(** What [GET /status] answers right after a DB-queue [POST /request]
    whose queries succeed: [matched] with the same match id, [waiting]
    after either [waiting] answer, and the unchanged state after a cooldown
    refusal. *)
Theorem db_request_then_status (u : string) (tags : list string) (now : Z) (mq : list QEntry)
    (w : World) (r : DbResponse) (mq' : list QEntry) (w' : World) :
  db_request u tags now mq w = (r, mq', w') ->
  (forall id, r = DMatched id -> db_status u mq' w' = SMatched id)
  /\ (r = DWaiting \/ r = DNoCompatible -> db_status u mq' w' = SWaiting)
  /\ (forall s, r = DCooldown s -> mq' = mq /\ w' = w).
Proof.
  destruct (db_mq1_spec u tags now mq) as [_ [_ [[e0 [He0 He0u]] _]]].
  unfold db_request; cbv zeta.
  destruct (find_active (matches w) u) as [m |] eqn:Efa.
  { intros H; injection H; intros <- <- <-; unfold db_status; rewrite Efa.
    repeat split; intros; try congruence; destruct H0 as [H0 | H0]; discriminate. }
  destruct (cooldown_check _ now).
  { intros H; injection H; intros <- <- <-.
    repeat split; intros; try discriminate; destruct H0 as [H0 | H0]; discriminate. }
  revert He0 He0u.
  generalize (match db_find_row u mq with Some e => q_joinedAt e | None => now end) as j.
  generalize (match db_find_row u mq with Some _ => mq | None => mq ++ [mkQEntry u tags now] end)
    as mq1.
  intros mq1 j He0 He0u.
  assert (Hw : db_status u mq1 w = SWaiting).
  { unfold db_status; rewrite Efa.
    destruct (db_find_row u mq1) eqn:Er; [reflexivity |].
    exfalso; exact (proj1 (db_find_row_none u mq1) Er e0 He0 He0u). }
  destruct (filter _ mq1) as [| c0 cs].
  { intros H; injection H; intros <- <- <-; repeat split; intros; try discriminate; exact Hw. }
  destruct (db_scan _ _ _ _ _ _ _) as [[[c s] |] | e].
  - intros H; injection H; intros <- <- <-; repeat split; intros; try discriminate.
    + injection H0; intros <-; unfold db_status; simpl.
      unfold find_active; simpl; unfold involves; simpl; rewrite String.eqb_refl; reflexivity.
    + destruct H0 as [H0 | H0]; discriminate.
  - intros H; injection H; intros <- <- <-; repeat split; intros; try discriminate; exact Hw.
  - intros H; injection H; intros <- <- <-; repeat split; intros; try discriminate; exact Hw.
Qed.

(** A requests with nobody else queued and waits; then B requests and is
    matched with A. *)
Lemma db_request_then_status_witness :
  let mq := [mkQEntry "A"%string [] 5000] in
  let w1 := set_matches [mkMatch 0 "B"%string "A"%string Active 9000 None] 1 init in
  db_request "A"%string [] 5000 [] init = (DWaiting, mq, init)
  /\ db_status "A"%string mq init = SWaiting
  /\ db_request "B"%string [] 9000 mq init = (DMatched 0, [], w1)
  /\ db_status "B"%string [] w1 = SMatched 0.
Proof.
  intros mq w1.
  assert (H : db_request "A"%string [] 5000 [] init = (DWaiting, mq, init)) by reflexivity.
  assert (H' : db_request "B"%string [] 9000 mq init = (DMatched 0, [], w1)) by reflexivity.
  split; [exact H |].
  split; [exact (proj1 (proj2 (db_request_then_status _ _ _ _ _ _ _ _ H)) (or_introl eq_refl)) |].
  split; [exact H' |].
  exact (proj1 (db_request_then_status _ _ _ _ _ _ _ _ H') 0%nat eq_refl).
Defined.

(** After the DB-queue [POST /cancel], [GET /status] answers [idle] unless
    the caller holds an active match. *)
Theorem db_cancel_then_status (u : string) (mq : list QEntry) (w : World) :
  db_status u (db_cancel u mq) w
  = match find_active (matches w) u with Some m => SMatched (matchId m) | None => SIdle end.
Proof.
  unfold db_status; destruct (find_active (matches w) u); [reflexivity |].
  replace (db_find_row u (db_cancel u mq)) with (@None QEntry); [reflexivity |].
  symmetry; apply db_find_row_none; intros e He; unfold db_cancel in He.
  apply filter_In in He; destruct He as [_ He]; apply negb_true_iff, String.eqb_neq in He;
    exact He.
Qed.

(** ** Private messages *)

Lemma drop_space_head (l : js_string) :
  match drop_space l with c :: _ => js_space c = false | [] => True end.
Proof.
  induction l as [| c l IH]; simpl; [exact I |].
  destruct (js_space c) eqn:E; [exact IH | exact E].
Qed.

Lemma drop_space_id (l : js_string) :
  match l with c :: _ => js_space c = false | [] => True end -> drop_space l = l.
Proof. destruct l as [| c l]; simpl; [reflexivity | intros ->; reflexivity]. Qed.

Lemma drop_space_snoc (l : js_string) (c : Z) :
  js_space c = false -> drop_space (l ++ [c]) = drop_space l ++ [c].
Proof.
  intros Hc; induction l as [| d l IH]; simpl; [rewrite Hc; reflexivity |].
  destruct (js_space d); [exact IH | reflexivity].
Qed.

(** Trimming a trimmed text changes nothing. *)
Lemma js_trim_idem (s : js_string) : js_trim (js_trim s) = js_trim s.
Proof.
  unfold js_trim.
  set (t := drop_space s).
  assert (Ht : match t with c :: _ => js_space c = false | [] => True end)
    by apply drop_space_head.
  set (r := rev (drop_space (rev t))).
  assert (Hr : drop_space r = r).
  { apply drop_space_id; unfold r; destruct t as [| c t']; [exact I |].
    simpl rev; rewrite (drop_space_snoc _ _ Ht), rev_app_distr; exact Ht. }
  rewrite Hr; unfold r; rewrite rev_involutive, drop_space_id;
    [reflexivity | apply drop_space_head].
Qed.

Lemma trim_nonempty (text : js_string) :
  js_trim text <> [] -> Nat.eqb (List.length (js_trim text)) 0 = false.
Proof. destruct (js_trim text); [contradiction | reflexivity]. Qed.

(** The [send_message] socket handler stores a message in any active match,
    whoever sends it: it does not check that the sender takes part in the
    match. *)
Theorem socket_send_ignores_membership (sender : string) (mid : nat) (text : js_string)
    (w : World) (msgs : list Message) (m : MatchRecord) :
  In m (matches w) -> matchId m = mid -> is_active m = true ->
  js_trim text <> [] -> (List.length text <= 2000)%nat ->
  socket_send_message sender mid text w msgs = (Sent, msgs ++ [mkMessage mid sender (js_trim text)]).
Proof.
  intros Hm Hid Ha Hne Hlen; unfold socket_send_message.
  rewrite (trim_nonempty text Hne).
  replace (Nat.ltb 2000 (List.length text)) with false
    by (symmetry; apply Nat.ltb_ge; exact Hlen).
  destruct (find_some_intro (fun m => Nat.eqb (matchId m) mid && is_active m) (matches w) m Hm)
    as [y Hy]; [rewrite Hid, Nat.eqb_refl, Ha; reflexivity |].
  rewrite Hy; reflexivity.
Qed.

(** "C", who is not in match 0, sends "hi" into it; a text of U+3000 alone
    is skipped, as [trim] empties it. *)
Lemma socket_send_ignores_membership_witness :
  let w := mkWorld [] [mkMatch 0 "A"%string "B"%string Active 0 None] [] [] []
                   (fun _ _ _ => false) 1 in
  socket_send_message "C"%string 0 [104; 105] w []
  = (Sent, [mkMessage 0 "C"%string [104; 105]])
  /\ socket_send_message "C"%string 0 [12288] w [] = (SkipEmpty, []).
Proof.
  intros w; split; [| reflexivity].
  exact (socket_send_ignores_membership "C"%string 0 [104; 105] w [] _ (or_introl eq_refl)
           eq_refl eq_refl ltac:(vm_compute; discriminate) ltac:(vm_compute; lia)).
Defined.

(** [POST /:matchId/messages] stores a message only from a user of an
    active match with that id, and stores it last. *)
Theorem post_message_requires_participant (sender : string) (mid : nat) (text : js_string)
    (w : World) (msgs msgs' : list Message) :
  post_message sender mid text w msgs = (P201, msgs') ->
  (exists m, In m (matches w) /\ matchId m = mid /\ involves m sender = true
             /\ is_active m = true)
  /\ msgs' = msgs ++ [mkMessage mid sender (js_trim text)].
Proof.
  unfold post_message; destruct (Nat.eqb _ 0); [discriminate |].
  destruct (find _ (matches w)) as [m |] eqn:E; [| discriminate].
  intros H; injection H; intros <-; split; [| reflexivity].
  apply find_some in E; destruct E as [Hm Hf].
  apply andb_true_iff in Hf; destruct Hf as [Hf Ha]; apply andb_true_iff in Hf.
  destruct Hf as [Hid Hi]; apply Nat.eqb_eq in Hid; exists m; auto.
Qed.

(** "B" posts "hi" followed by U+00A0, stored as "hi"; "C" gets 404. *)
Lemma post_message_requires_participant_witness :
  let w := mkWorld [] [mkMatch 0 "A"%string "B"%string Active 0 None] [] [] []
                   (fun _ _ _ => false) 1 in
  post_message "B"%string 0 [104; 105; 160] w [] = (P201, [mkMessage 0 "B"%string [104; 105]])
  /\ (exists m, In m (matches w) /\ matchId m = 0%nat /\ involves m "B"%string = true
                /\ is_active m = true)
  /\ post_message "C"%string 0 [104; 105] w [] = (P404, []).
Proof.
  intros w.
  assert (H : post_message "B"%string 0 [104; 105; 160] w []
              = (P201, [mkMessage 0 "B"%string [104; 105]])) by reflexivity.
  destruct (post_message_requires_participant _ _ _ _ _ _ H) as [Hm _].
  split; [exact H | split; [exact Hm | reflexivity]].
Defined.

(** The two ways of sending disagree on long texts: the socket handler
    refuses more than 2000 UTF-16 code units, the HTTP route has no limit. *)
Theorem send_length_limit_differs (sender : string) (mid : nat) (text : js_string)
    (w : World) (msgs : list Message) (m : MatchRecord) :
  In m (matches w) -> matchId m = mid -> involves m sender = true -> is_active m = true ->
  js_trim text <> [] -> (2000 < List.length text)%nat ->
  socket_send_message sender mid text w msgs = (ErrTooLong, msgs)
  /\ post_message sender mid text w msgs = (P201, msgs ++ [mkMessage mid sender (js_trim text)]).
Proof.
  intros Hm Hid Hi Ha Hne Hlen; unfold socket_send_message, post_message.
  rewrite (trim_nonempty text Hne).
  replace (Nat.ltb 2000 (List.length text)) with true
    by (symmetry; apply Nat.ltb_lt; exact Hlen).
  split; [reflexivity |].
  destruct (find_some_intro (fun m => Nat.eqb (matchId m) mid && involves m sender && is_active m)
              (matches w) m Hm) as [y Hy]; [rewrite Hid, Nat.eqb_refl, Hi, Ha; reflexivity |].
  rewrite Hy; reflexivity.
Qed.

(** 1001 emoji U+1F600, each two code units: 2002 units. *)
Lemma send_length_limit_differs_witness :
  let w := mkWorld [] [mkMatch 0 "A"%string "B"%string Active 0 None] [] [] []
                   (fun _ _ _ => false) 1 in
  let text := List.concat (repeat [55357; 56832] 1001) in
  socket_send_message "A"%string 0 text w [] = (ErrTooLong, [])
  /\ post_message "A"%string 0 text w [] = (P201, [mkMessage 0 "A"%string text]).
Proof.
  intros w text.
  assert (Htrim : js_trim text = text) by (vm_compute; reflexivity).
  destruct (send_length_limit_differs "A"%string 0 text w [] _ (or_introl eq_refl) eq_refl
              eq_refl eq_refl ltac:(rewrite Htrim; vm_compute; discriminate)
              ltac:(vm_compute; lia)) as [H1 H2].
  split; [exact H1 | rewrite H2, Htrim; reflexivity].
Defined.

(** Every stored message text is non-empty and already trimmed: both ways
    of sending keep this of the message table. *)
Theorem stored_messages_trimmed (sender : string) (mid : nat) (text : js_string) (w : World)
    (msgs : list Message) :
  (forall x, In x msgs -> messageText x <> [] /\ js_trim (messageText x) = messageText x) ->
  (forall x, In x (snd (socket_send_message sender mid text w msgs)) ->
             messageText x <> [] /\ js_trim (messageText x) = messageText x)
  /\ (forall x, In x (snd (post_message sender mid text w msgs)) ->
             messageText x <> [] /\ js_trim (messageText x) = messageText x).
Proof.
  intros Hinv.
  assert (Hnew : Nat.eqb (List.length (js_trim text)) 0 = false ->
                 forall x, In x (msgs ++ [mkMessage mid sender (js_trim text)]) ->
                 messageText x <> [] /\ js_trim (messageText x) = messageText x).
  { intros He x Hx; apply in_app_or in Hx; destruct Hx as [Hx | [<- | []]]; [auto |].
    simpl; split; [| apply js_trim_idem].
    intros H; rewrite H in He; discriminate. }
  unfold socket_send_message, post_message.
  destruct (Nat.eqb (List.length (js_trim text)) 0) eqn:E; [split; exact Hinv |].
  split.
  - destruct (Nat.ltb 2000 _); [exact Hinv |].
    destruct (find _ _); [exact (Hnew eq_refl) | exact Hinv].
  - destruct (find _ _); [exact (Hnew eq_refl) | exact Hinv].
Qed.

(** Two spaces, "hi", U+3000 and U+FEFF: "hi" is stored. *)
Lemma stored_messages_trimmed_witness :
  let w := mkWorld [] [mkMatch 0 "A"%string "B"%string Active 0 None] [] [] []
                   (fun _ _ _ => false) 1 in
  let text := [32; 32; 104; 105; 12288; 65279] in
  snd (socket_send_message "A"%string 0 text w [])
  = [mkMessage 0 "A"%string [104; 105]]
  /\ forall x, In x (snd (socket_send_message "A"%string 0 text w [])) ->
     messageText x <> [] /\ js_trim (messageText x) = messageText x.
Proof.
  intros w text; split; [reflexivity |].
  exact (proj1 (stored_messages_trimmed "A"%string 0 text w []
                  (fun x (H : In x []) => match H with end))).
Defined.

(** ** [validatePassword] *)

Lemma list_ascii_of_string_append (s1 s2 : string) :
  list_ascii_of_string (String.append s1 s2) = list_ascii_of_string s1 ++ list_ascii_of_string s2.
Proof. induction s1 as [| c s1 IH]; simpl; [reflexivity | rewrite IH; reflexivity]. Qed.

Lemma existsb_insert {A : Type} (f : A -> bool) (l1 l2 : list A) (c : A) :
  existsb f (l1 ++ l2) = true -> existsb f (l1 ++ c :: l2) = true.
Proof.
  rewrite !existsb_exists; intros [x [Hx Hf]]; exists x; split; [| exact Hf].
  apply in_app_or in Hx; apply in_or_app; destruct Hx; [left | right; right]; assumption.
Qed.

(** Inserting a character anywhere into an accepted password gives an
    accepted password exactly when the character is in the allowed set
    (letters, digits and [@$!%*?&]): e.g. [#], [-], [_] or a space make it
    rejected, although the stated requirements do not mention them. *)
Theorem validatePassword_insert (p1 p2 : string) (c : ascii) :
  validatePassword (String.append p1 p2) = true ->
  validatePassword (String.append p1 (String c p2)) = pw_char c.
Proof.
  unfold validatePassword; rewrite !list_ascii_of_string_append; simpl list_ascii_of_string.
  set (l1 := list_ascii_of_string p1); set (l2 := list_ascii_of_string p2).
  intros H; repeat (apply andb_true_iff in H; destruct H as [H ?]).
  rewrite !existsb_insert by assumption.
  match goal with Hf : forallb pw_char (l1 ++ l2) = true |- _ =>
    rewrite forallb_app in Hf; apply andb_true_iff in Hf; destruct Hf as [Hf1 Hf2] end.
  match goal with Hl : Nat.leb 8 (List.length (l1 ++ l2)) = true |- _ =>
    apply Nat.leb_le in Hl; rewrite length_app in Hl end.
  replace (Nat.leb 8 (List.length (l1 ++ c :: l2))) with true
    by (symmetry; apply Nat.leb_le; rewrite length_app; simpl; lia).
  rewrite forallb_app; cbn [forallb]; rewrite Hf1, Hf2.
  rewrite !andb_true_r; reflexivity.
Qed.

Lemma validatePassword_insert_witness :
  validatePassword (String.append "Passw"%string "0rd"%string) = true
  /\ validatePassword (String.append "Passw"%string (String "#"%char "0rd"%string)) = false
  /\ validatePassword (String.append "Passw"%string (String "!"%char "0rd"%string)) = true.
Proof.
  assert (H : validatePassword (String.append "Passw"%string "0rd"%string) = true)
    by reflexivity.
  split; [exact H |].
  split; [exact (validatePassword_insert _ _ "#"%char H)
         | exact (validatePassword_insert _ _ "!"%char H)].
Defined.

(** ** Further compositions *)

(** In every reachable state, after a pass pairs two users, [GET /status]
    answers [matched] with the new match's id to both, and that match is
    the only active one of each: the answer does not depend on the row
    order [findFirst] happens to use. *)
Theorem pass_then_status (now : Z) (w : World) (a b : Entry) (s : Z) :
  steps init w ->
  (2 <= List.length (queue w))%nat -> scan w now (queue w) = Ok (Some (a, b, s)) ->
  status_of (userId a) (run_pass now w) = SMatched (next_id w)
  /\ status_of (userId b) (run_pass now w) = SMatched (next_id w)
  /\ active_count (matches (run_pass now w)) (userId a) = 1%nat
  /\ active_count (matches (run_pass now w)) (userId b) = 1%nat.
Proof.
  intros Hst Hl Hs.
  destruct (match_inv_steps _ _ Hst match_inv_init) as [_ Hq].
  assert (Hm : matches (run_pass now w)
               = mkMatch (next_id w) (userId a) (userId b) Active now None :: matches w).
  { unfold run_pass; rewrite pass_with_matches.
    replace (Nat.ltb (List.length (queue w)) 2) with false
      by (symmetry; apply Nat.ltb_ge; exact Hl).
    rewrite Hs; reflexivity. }
  unfold scan in Hs; destruct (scan_pairs_result _ _ _ _ _ _ _ Hs) as [H | [Hab _]];
    [discriminate |].
  destruct (pairs_In _ _ _ Hab) as [Ha Hb].
  unfold status_of, find_active; rewrite Hm, !active_count_cons, (Hq a Ha), (Hq b Hb).
  simpl; unfold involves, is_active; simpl.
  rewrite !String.eqb_refl, orb_true_r; repeat split; reflexivity.
Qed.

Lemma pass_then_status_witness :
  let w := snd (request "B"%string [] 1000 (snd (request "A"%string [] 0 init))) in
  steps init w
  /\ (2 <= List.length (queue w))%nat
  /\ scan w 5000 (queue w) = Ok (Some (mkEntry "A"%string [] 0 0, mkEntry "B"%string [] 1000 0, 10))
  /\ status_of "A"%string (run_pass 5000 w) = SMatched 0
  /\ status_of "B"%string (run_pass 5000 w) = SMatched 0
  /\ active_count (matches (run_pass 5000 w)) "A"%string = 1%nat
  /\ active_count (matches (run_pass 5000 w)) "B"%string = 1%nat.
Proof.
  intros w.
  assert (H0 : steps init w).
  { apply (steps_cons _ _ _ (step_request "A"%string [] 0 init)).
    apply (steps_cons _ _ _ (step_request "B"%string [] 1000 _)).
    apply steps_refl. }
  assert (H1 : (2 <= List.length (queue w))%nat) by (vm_compute; lia).
  assert (H2 : scan w 5000 (queue w)
               = Ok (Some (mkEntry "A"%string [] 0 0, mkEntry "B"%string [] 1000 0, 10)))
    by (vm_compute; reflexivity).
  split; [exact H0 | split; [exact H1 | split; [exact H2 |]]].
  exact (pass_then_status 5000 w _ _ _ H0 H1 H2).
Defined.

(** The [lastMatchTime] written into a queued entry is the end time of the
    caller's last ended match, which then lies at least five minutes before
    the request, or [0]. *)
Theorem request_entry_lastMatchTime (u : string) (tags : list string) (t : Z) (w : World) :
  fst (request u tags t w) = RWaiting ->
  exists lmt, In (mkEntry u tags t lmt) (queue (snd (request u tags t w)))
    /\ (lmt = 0
        \/ exists m, last_ended (matches w) u = Some m /\ endedAt m = Some lmt
                     /\ lmt + MATCH_COOLDOWN_MS <= t).
Proof.
  unfold request.
  destruct (find_active (matches w) u); [discriminate |].
  destruct (cooldown_check (last_ended (matches w) u) t) eqn:Ec; [discriminate |].
  intros _; simpl; eexists; split; [apply zadd_keeps; left; reflexivity |].
  destruct (last_ended (matches w) u) as [m |]; [| left; reflexivity].
  unfold cooldown_check in Ec; destruct (endedAt m) as [e |] eqn:Ee; [| left; reflexivity].
  right; exists m; split; [reflexivity | split; [exact Ee |]].
  destruct (t <? e + MATCH_COOLDOWN_MS) eqn:Et; [discriminate |].
  apply Z.ltb_ge in Et; exact Et.
Qed.

Lemma request_entry_lastMatchTime_witness :
  let w := mkWorld [] [mkMatch 0 "u"%string "v"%string Ended 0 (Some 1000)] [] [] []
                   (fun _ _ _ => false) 1 in
  fst (request "u"%string [] 400000 w) = RWaiting
  /\ queue (snd (request "u"%string [] 400000 w)) = [mkEntry "u"%string [] 400000 1000].
Proof.
  intros w.
  assert (H : fst (request "u"%string [] 400000 w) = RWaiting) by reflexivity.
  destruct (request_entry_lastMatchTime _ _ _ _ H) as [lmt [Hin _]].
  split; [exact H | reflexivity].
Defined.

(** The candidate loop of the DB-queue route, when no query fails. *)
Definition db_eligible (w : World) (u : string) (c : QEntry) : bool :=
  negb (existsb (String.eqb (q_userId c)) (suspended w))
  && negb (blocked_between (blocks w) u (q_userId c))
  && negb (reported_between (reports w) u (q_userId c)).

Definition db_score (w : World) (u : string) (tags : list string) (j now : Z) (c : QEntry) : Z :=
  request_score (mkQEntry u tags j) c now (recent_match (matches w) u (q_userId c) now).

Lemma db_candidate_nofail (w : World) (u : string) (tags : list string) (j now : Z)
    (best : option (QEntry * Z)) (c : QEntry) :
  no_lookup_failure w ->
  db_candidate w u tags j now best c
  = Ok (if db_eligible w u c
        then match best with
             | None => Some (c, db_score w u tags j now c)
             | Some (_, bs) => if bs <? db_score w u tags j now c
                               then Some (c, db_score w u tags j now c) else best
             end
        else best).
Proof.
  intros Hok; unfold db_candidate, db_eligible, db_score, lookup, bind; rewrite !Hok.
  destruct (existsb _ _), (blocked_between _ _ _), (reported_between _ _ _); simpl;
    try reflexivity.
  destruct best as [[? ?] |]; [destruct (_ <? _) |]; reflexivity.
Qed.

Lemma db_scan_max (w : World) (u : string) (tags : list string) (j now : Z) (cs : list QEntry) :
  no_lookup_failure w ->
  forall best0 c s, db_scan w u tags j now best0 cs = Ok (Some (c, s)) ->
  (forall c', In c' cs -> db_eligible w u c' = true -> db_score w u tags j now c' <= s)
  /\ match best0 with Some (_, bs) => bs <= s | None => True end
  /\ (best0 = Some (c, s) \/ s = db_score w u tags j now c).
Proof.
  intros Hok; induction cs as [| c0 cs IH]; intros best0 c s H; simpl in H.
  - injection H; intros ->; split; [intros ? [] | split; [simpl; lia | left; reflexivity]].
  - rewrite db_candidate_nofail in H by exact Hok; cbn [bind] in H.
    destruct (IH _ _ _ H) as [Hmax [Hb1 Hwho]].
    destruct (db_eligible w u c0) eqn:Ee; [| split; [| split; [exact Hb1 | exact Hwho]]].
    + destruct best0 as [[c1 bs] |].
      * destruct (bs <? db_score w u tags j now c0) eqn:Eb.
        -- apply Z.ltb_lt in Eb; simpl in Hb1.
           split; [intros c' [<- | Hin] He; [lia | auto] |].
           split; [lia |].
           destruct Hwho as [Hh | Hh]; [injection Hh; intros <- <-; right; reflexivity | auto].
        -- apply Z.ltb_ge in Eb; simpl in Hb1.
           split; [intros c' [<- | Hin] He; [lia | auto] |].
           split; [exact Hb1 | exact Hwho].
      * simpl in Hb1.
        split; [intros c' [<- | Hin] He; [lia | auto] |].
        split; [exact I |].
        destruct Hwho as [Hh | Hh]; [injection Hh; intros <- <-; right; reflexivity | auto].
    + intros c' [<- | Hin] He; [congruence | auto].
Qed.

(** When no query fails, the partner the DB-queue [POST /request] picks has
    the highest score among the other queued users that pass the safety
    filter. *)
Theorem db_request_picks_best (u : string) (tags : list string) (now : Z) (mq : list QEntry)
    (w : World) (r : DbResponse) (mq' : list QEntry) (w' : World) (m : MatchRecord) :
  no_lookup_failure w ->
  db_request u tags now mq w = (r, mq', w') -> In m (matches w') -> ~ In m (matches w) ->
  exists c, In c mq /\ q_userId c = userTwoId m
  /\ forall c', In c' mq -> q_userId c' <> u -> db_eligible w u c' = true ->
     db_score w u tags (match db_find_row u mq with Some e => q_joinedAt e | None => now end)
              now c'
     <= db_score w u tags (match db_find_row u mq with Some e => q_joinedAt e | None => now end)
                 now c.
Proof.
  intros Hok.
  destruct (db_mq1_spec u tags now mq) as [Hsub [Hsup _]].
  unfold db_request; cbv zeta.
  destruct (find_active (matches w) u); [intros H; injection H; intros <- _ _; tauto |].
  destruct (cooldown_check _ now); [intros H; injection H; intros <- _ _; tauto |].
  revert Hsub Hsup.
  generalize (match db_find_row u mq with Some e => q_joinedAt e | None => now end) as j.
  generalize (match db_find_row u mq with Some _ => mq | None => mq ++ [mkQEntry u tags now] end)
    as mq1.
  intros mq1 j Hsub Hsup.
  destruct (filter (fun e => negb (String.eqb (q_userId e) u)) mq1) as [| c0 cs] eqn:Ef;
    [intros H; injection H; intros <- _ _; tauto |].
  destruct (db_scan w u tags j now None (c0 :: cs)) as [[[c s] |] | e] eqn:Es;
    [| intros H; injection H; intros <- _ _; tauto | intros H; injection H; intros <- _ _; tauto].
  intros H; injection H; intros <- _ _; simpl; intros [<- | Hin] Hn; [| contradiction].
  destruct (db_scan_max _ _ _ _ _ _ Hok _ _ _ Es) as [Hmax [_ [Hb | Hs]]]; [discriminate |].
  destruct (db_scan_result _ _ _ _ _ _ _ _ _ Es) as [Hb | [Hc _]]; [discriminate |].
  rewrite <- Ef in Hc, Hmax; apply filter_In in Hc; destruct Hc as [Hc Hcu].
  apply negb_true_iff, String.eqb_neq in Hcu.
  exists c; split; [destruct (Hsub c Hc); [assumption | contradiction] | split; [reflexivity |]].
  intros c' Hc' Hu' He'; rewrite <- Hs; apply Hmax; [| exact He'].
  apply filter_In; split; [apply Hsup; exact Hc' |].
  apply negb_true_iff, String.eqb_neq; exact Hu'.
Qed.

Lemma db_request_picks_best_witness :
  let mq := [mkQEntry "B"%string [] 0; mkQEntry "C"%string ["t"%string] 3000] in
  let m := mkMatch 0 "A"%string "C"%string Active 5000 None in
  db_request "A"%string ["t"%string] 5000 mq init = (DMatched 0, [mkQEntry "B"%string [] 0],
                                                   set_matches [m] 1 init)
  /\ exists c, In c mq /\ q_userId c = "C"%string.
Proof.
  intros mq m.
  assert (Hok : no_lookup_failure init) by (intros l x y; reflexivity).
  assert (H : db_request "A"%string ["t"%string] 5000 mq init
              = (DMatched 0, [mkQEntry "B"%string [] 0], set_matches [m] 1 init)) by reflexivity.
  split; [exact H |].
  destruct (db_request_picks_best _ _ _ _ _ _ _ _ m Hok H (or_introl eq_refl) (fun H => H))
    as [c [Hc [Hu _]]].
  exists c; split; [exact Hc | exact Hu].
Defined.
